(** * ParticleFlux (heart): the particle simulation core of [src/index.tsx]

    A shallow embedding of the three algorithmic parts of the component:

    - [generateShape], the target point-cloud generator (lines 19-78);
    - [onResults], the MediaPipe callback that turns hand landmarks into
      the smoothed [gestureFactor] (lines 224-257);
    - [animate], the per-frame particle update (lines 151-212).

    Numbers.  JavaScript numbers are IEEE-754 doubles and the two position
    buffers are [Float32Array]s.  This development reads every arithmetic
    expression of the source over the real numbers [R] of the Standard
    Library: [Math.sin], [Math.cos], [Math.sqrt], [Math.acos], [Math.PI]
    are [sin], [cos], [sqrt], [acos], [PI]; rounding, NaN and the
    infinities are outside the model.  Where the source can read
    [undefined] from a buffer (and would go on computing with NaN) the
    model returns [None].

    Effects.  [Math.random()] is the [k]-th element of a sequence of draws,
    with the call counter threaded through the generator; [Date.now()] is
    an argument of the callback; the React state and the [stateRef] object
    are two records carried by explicit state passing; a thrown
    [TypeError] is an abrupt completion returned next to the state. *)

From Stdlib Require Import Reals Lra Lia String.
From stdpp Require Import base option list.

Open Scope R_scope.

(** ** JavaScript numeric primitives not in the Standard Library *)

Module Math.

(** [Math.cbrt]: the real cube root, odd and defined on all of [R]. *)
Definition cbrt (x : R) : R :=
  if Rlt_dec 0 x then exp (ln x / 3)
  else if Rlt_dec x 0 then - exp (ln (- x) / 3)
  else 0.

(** [Math.max(a, Math.min(b, x))] is written with [Rmax] and [Rmin]. *)
Definition max := Rmax.
Definition min := Rmin.
Definition abs := Rabs.

End Math.

(** ** Configuration (lines 14-16) *)

Definition PARTICLE_COUNT : nat := 4000.

(** ** Shapes generator (lines 19-78) *)

Definition Point : Type := R * R * R.

Section Generator.

(** The sequence of values returned by successive [Math.random()] calls. *)
Variable random : nat -> R.

(** One iteration of the loop body, lines 24-70: the point computed for
    one particle, and the call counter after the draws it made.  The
    draws happen in source order; the heart branch draws [u] although it
    never uses it. *)
Definition shapePoint (type : string) (k : nat) : Point * nat :=
  if String.eqb type "heart" then
    let t := random k * PI * 2 in
    let u := random (k + 1) * PI in
    let hx := 16 * sin t ^ 3 in
    let hy := 13 * cos t - 5 * cos (2 * t) - 2 * cos (3 * t) - cos (4 * t) in
    let scale := 0.25 in
    let x := hx * scale in
    let y := hy * scale in
    let z := (random (k + 2) - 0.5) * 5 * sin t in
    let dist := random (k + 3) in
    ((x * dist, y * dist, z * dist), (k + 4)%nat)
  else if String.eqb type "flower" then
    let theta := random k * PI * 2 in
    let phi := random (k + 1) * PI in
    let r := 3 * cos (4 * theta) + 1 in
    let x := r * sin phi * cos theta in
    let y := r * cos phi in
    let z := r * sin phi * sin theta in
    ((x, y * 0.5, z), (k + 2)%nat)
  else if String.eqb type "fireworks" then
    let r := 4 * Math.cbrt (random k) in
    let theta := random (k + 1) * 2 * PI in
    let phi := acos (2 * random (k + 2) - 1) in
    let x := r * sin phi * cos theta in
    let y := r * sin phi * sin theta in
    let z := r * cos phi in
    ((x, y, z), (k + 3)%nat)
  else
    ((0, 0, 0), k).

(** The three stores of lines 72-74 into the [Float32Array]. *)
Definition storePoint (positions : list R) (i : nat) (p : Point) : list R :=
  let i3 := (i * 3)%nat in
  let '(x, y, z) := p in
  <[(i3 + 2)%nat := z]> (<[(i3 + 1)%nat := y]> (<[i3 := x]> positions)).

(** The [for] loop of line 22, run for [n] more iterations from index [i]. *)
Fixpoint fillShape (type : string) (n i : nat) (positions : list R) (k : nat)
  : list R * nat :=
  match n with
  | O => (positions, k)
  | S n' =>
      let '(p, k') := shapePoint type k in
      fillShape type n' (S i) (storePoint positions i p) k'
  end.

(** [generateShape type count], started when [k] draws have been made:
    a fresh zero-filled array of [count * 3] components, then the loop. *)
Definition generateShape (type : string) (count : nat) (k : nat)
  : list R * nat :=
  fillShape type count 0 (replicate (count * 3) 0) k.

(** Number of [Math.random()] calls per generated point. *)
Definition drawsPerPoint (type : string) : nat :=
  if String.eqb type "heart" then 4
  else if String.eqb type "flower" then 2
  else if String.eqb type "fireworks" then 3
  else 0.

End Generator.

(** ** Component state (lines 81-95) *)

Inductive HandStatus : Set := detected | searching.

(** [stateRef.current]; its [color] field plays no part in the simulation
    arithmetic and is left out. *)
Record Ref : Type := mkRef {
  shape : string;
  targetPositions : list R;
  gestureFactor : R
}.

(** The React state read by the gesture code: [handStatus] and
    [gestureValue] ([activeShape] and [particleColor] only feed the
    control panel and the two small effects of lines 98-105). *)
Record Ui : Type := mkUi {
  handStatus : HandStatus;
  gestureValue : R
}.

Record World : Type := mkWorld {
  stateRef : Ref;
  ui : Ui
}.

(** The arguments of [useState] at lines 83-84. *)
Definition initialUi : Ui := {| handStatus := searching; gestureValue := 0 |}.

(** The argument of [useRef] at lines 90-95, evaluated on the first render. *)
Definition initialRef (random : nat -> R) : Ref :=
  {| shape := "heart";
     targetPositions := fst (generateShape random "heart" PARTICLE_COUNT 0);
     gestureFactor := 1.0 |}.

Definition initialWorld (random : nat -> R) : World :=
  {| stateRef := initialRef random; ui := initialUi |}.

Definition setHandStatus (s : HandStatus) (w : World) : World :=
  {| stateRef := stateRef w;
     ui := {| handStatus := s; gestureValue := gestureValue (ui w) |} |}.

Definition setGestureValue (v : R) (w : World) : World :=
  {| stateRef := stateRef w;
     ui := {| handStatus := handStatus (ui w); gestureValue := v |} |}.

(** [stateRef.current.gestureFactor = v]. *)
Definition setGestureFactor (v : R) (w : World) : World :=
  {| stateRef := {| shape := shape (stateRef w);
                    targetPositions := targetPositions (stateRef w);
                    gestureFactor := v |};
     ui := ui w |}.

(** ** Perception results (MediaPipe Hands) *)

Module Landmark.

Record t : Type := mk { x : R; y : R; z : R }.

End Landmark.

(** A landmark array is a JavaScript array: an index past its end, or a
    hole, reads as [undefined] ([None] below). *)
Definition Landmarks : Type := list (option Landmark.t).

(** [results.multiHandLandmarks] may be absent ([None]). *)
Record Results : Type := mkResults {
  multiHandLandmarks : option (list Landmarks)
}.

(** [landmarks[i]]. *)
Definition landmarkAt (landmarks : Landmarks) (i : nat) : option Landmark.t :=
  match landmarks !! i with
  | Some (Some p) => Some p
  | _ => None
  end.

Inductive JsError : Set := TypeError.

(** How a call ends: normally, or by an uncaught exception. *)
Inductive Completion : Set :=
  | Normal
  | Throw (e : JsError).

(** ** The gesture callback (lines 224-257) *)

(** Lines 232-236. *)
Definition pinchDistance (thumb index : Landmark.t) : R :=
  sqrt ((Landmark.x thumb - Landmark.x index) ^ 2 +
        (Landmark.y thumb - Landmark.y index) ^ 2 +
        (Landmark.z thumb - Landmark.z index) ^ 2).

(** Lines 239-240. *)
Definition pinchFactor (dist : R) : R :=
  let factor := (dist - 0.03) / 0.15 in
  Math.max 0 (Math.min 1 factor).

(** Lines 253-254; [now] is the value of [Date.now()], in milliseconds. *)
Definition autoFactor (now : Z) : R :=
  let time := IZR now / 1000 in
  (sin (time * 2) + 1) / 2.

(** The body of [onResults] with its free variable [gestureValue]: the
    constant of the render in which the closure was created.  Property
    reads [thumb.x] and [index.x] on [undefined] throw a [TypeError];
    [setHandStatus] has already been called by then. *)
Definition onResults_closure (gestureValue : R)
    (now : Z) (results : Results) (w : World) : World * Completion :=
  match multiHandLandmarks results with
  | Some (landmarks :: _) =>
      let w := setHandStatus detected w in
      match landmarkAt landmarks 4, landmarkAt landmarks 8 with
      | Some thumb, Some index =>
          let dist := pinchDistance thumb index in
          let factor := pinchFactor dist in
          let g := gestureFactor (stateRef w) in
          let w := setGestureFactor (g + (factor - g) * 0.2) w in
          let w :=
            if Rgt_dec (Math.abs (factor - gestureValue)) 0.05
            then setGestureValue factor w
            else w in
          (w, Normal)
      | _, _ => (w, Throw TypeError)
      end
  | _ =>
      let w := setHandStatus searching w in
      let g := gestureFactor (stateRef w) in
      (setGestureFactor (g + (autoFactor now - g) * 0.05) w, Normal)
  end.

(** The effect of line 108 has the empty dependency list [[]]: it runs once,
    after the first render, so the [onResults] handed to
    [hands.onResults] (line 279) is the closure of that render, in which
    [gestureValue] is the initial state of line 84. *)
Definition onResults : Z -> Results -> World -> World * Completion :=
  onResults_closure (gestureValue initialUi).

(** A run of the perception pipeline: one callback per frame, each with the
    clock value it sees.  A callback that throws leaves the state as it
    was at the throw; the next frame is delivered all the same. *)
Fixpoint perceive (frames : list (Z * Results)) (w : World) : World :=
  match frames with
  | [] => w
  | (now, results) :: rest => perceive rest (fst (onResults now results w))
  end.

(** A frame in which no hand is reported. *)
Definition noHand (results : Results) : Prop :=
  multiHandLandmarks results = None \/ multiHandLandmarks results = Some [].

(** A frame that reports a hand whose landmark 4 or landmark 8 is missing. *)
Definition malformed (results : Results) : Prop :=
  exists landmarks rest,
    multiHandLandmarks results = Some (landmarks :: rest) /\
    (landmarkAt landmarks 4 = None \/ landmarkAt landmarks 8 = None).

(** ** The animation tick (lines 151-212) *)

(** Lines 165 and 172-198: the target of particle [i] before smoothing. *)
Definition particleTarget (ref : Ref) (time : R) (i : nat) (t : Point) : Point :=
  let targetScale := 0.2 + gestureFactor ref * 0.8 in
  let '(tx, ty, tz) := t in
  let '(tx, ty, tz) :=
    if String.eqb (shape ref) "fireworks" then
      let explosionFactor := 0.5 + gestureFactor ref * 2.5 in
      let tx := tx * explosionFactor in
      let ty := ty * explosionFactor in
      let tz := tz * explosionFactor in
      let rotSpeed := 0.2 in
      let x := tx * cos (time * rotSpeed) - tz * sin (time * rotSpeed) in
      let z := tx * sin (time * rotSpeed) + tz * cos (time * rotSpeed) in
      (x, ty, z)
    else
      (tx * targetScale, ty * targetScale, tz * targetScale) in
  let tx := tx + sin (time * 2 + INR i) * 0.05 in
  let ty := ty + cos (time * 1.5 + INR i) * 0.05 in
  (tx, ty, tz).

(** [live += (target - live) * 0.08], lines 201-203. *)
Definition lerp (live target : R) : R := live + (target - live) * 0.08.

(** [positions[j] += (t - positions[j]) * 0.08]; [None] when the read is out
    of range. *)
Definition lerpAt (positions : list R) (j : nat) (t : R) : option (list R) :=
  p ← positions !! j;
  Some (<[j := lerp p t]> positions).

(** One iteration of the loop of line 168. *)
Definition animateParticle (ref : Ref) (time : R) (i : nat)
    (positions : list R) : option (list R) :=
  let target := targetPositions ref in
  let i3 := (i * 3)%nat in
  tx ← target !! i3;
  ty ← target !! (i3 + 1)%nat;
  tz ← target !! (i3 + 2)%nat;
  let '(tx, ty, tz) := particleTarget ref time i (tx, ty, tz) in
  positions ← lerpAt positions i3 tx;
  positions ← lerpAt positions (i3 + 1)%nat ty;
  lerpAt positions (i3 + 2)%nat tz.

(** [n] more iterations of the loop, from index [i]. *)
Fixpoint animateLoop (ref : Ref) (time : R) (n i : nat) (positions : list R)
  : option (list R) :=
  match n with
  | O => Some positions
  | S n' =>
      positions ← animateParticle ref time i positions;
      animateLoop ref time n' (S i) positions
  end.

(** The position update of one call of [animate], [time] being
    [clock.getElapsedTime()]. *)
Definition animate (ref : Ref) (time : R) (positions : list R)
  : option (list R) :=
  animateLoop ref time PARTICLE_COUNT 0 positions.

(** Successive ticks at the given clock readings, [stateRef] unchanged. *)
Fixpoint animateTicks (ref : Ref) (times : list R) (positions : list R)
  : option (list R) :=
  match times with
  | [] => Some positions
  | time :: rest =>
      positions ← animate ref time positions;
      animateTicks ref rest positions
  end.

(** ** The per-particle rule as the specification words it *)

Module Spec.

(** Uniform scaling of a point. *)
Definition scale (s : R) (p : Point) : Point :=
  let '(x, y, z) := p in (s * x, s * y, s * z).

(** The 2D rotation matrix of angle [a] applied to the pair [(u, v)]. *)
Definition rotate2 (a : R) (uv : R * R) : R * R :=
  let '(u, v) := uv in
  (cos a * u - sin a * v, sin a * u + cos a * v).

(** Rotation of the [(x, z)] pair about the vertical axis. *)
Definition rotateXZ (a : R) (p : Point) : Point :=
  let '(x, y, z) := p in
  let '(x', z') := rotate2 a (x, z) in
  (x', y, z').

Definition explosionScalar (g : R) : R := 0.5 + g * 2.5.
Definition breathingScalar (g : R) : R := 0.2 + g * 0.8.

(** The jitter added to [tx] and [ty]. *)
Definition jitter (elapsedTime : R) (i : nat) (p : Point) : Point :=
  let '(x, y, z) := p in
  (x + 0.05 * sin (2 * elapsedTime + INR i),
   y + 0.05 * cos (1.5 * elapsedTime + INR i),
   z).

Definition target (shape : string) (g elapsedTime : R) (i : nat) (p : Point)
  : Point :=
  jitter elapsedTime i
    (if String.eqb shape "fireworks"
     then rotateXZ (elapsedTime * 0.2) (scale (explosionScalar g) p)
     else scale (breathingScalar g) p).

(** The point of index [i] in an interleaved buffer. *)
Definition pointAt (buffer : list R) (i : nat) : option Point :=
  x ← buffer !! (i * 3)%nat;
  y ← buffer !! (i * 3 + 1)%nat;
  z ← buffer !! (i * 3 + 2)%nat;
  Some (x, y, z).

(** Coordinates of a generated point stay below this bound. *)
Definition coordBound : R := 21 / 4.

Definition boundedPoint (p : Point) : Prop :=
  let '(x, y, z) := p in
  Rabs x <= coordBound /\ Rabs y <= coordBound /\ Rabs z <= coordBound.

(** Clamping to the unit interval, case by case. *)
Definition clamp01 (r : R) : R :=
  if Rle_dec r 0 then 0 else if Rle_dec 1 r then 1 else r.

(** Componentwise smoothing of a live point toward a target point. *)
Definition lerpPoint (live target : Point) : Point :=
  let '(x, y, z) := live in
  let '(tx, ty, tz) := target in
  (lerp x tx, lerp y ty, lerp z tz).

(** [k] ticks of smoothing of one coordinate toward a target that does not
    move. *)
Fixpoint lerpTicks (k : nat) (live target : R) : R :=
  match k with
  | O => live
  | S k' => lerpTicks k' (lerp live target) target
  end.

(** Euclidean distance from the origin. *)
Definition norm (p : Point) : R :=
  let '(x, y, z) := p in sqrt (x ^ 2 + y ^ 2 + z ^ 2).

End Spec.

(** ** Shape selection and the live buffer *)

(** The effect of lines 98-101, run when [activeShape] changes: the whole
    target cloud is regenerated. *)
Definition selectShape (random : nat -> R) (activeShape : string) (k : nat)
    (w : World) : World * nat :=
  let '(target, k') := generateShape random activeShape PARTICLE_COUNT k in
  ({| stateRef := {| shape := activeShape;
                     targetPositions := target;
                     gestureFactor := gestureFactor (stateRef w) |};
      ui := ui w |}, k').

(** Lines 128-130: the live buffer starts at random positions of the cube
    [[-5,5)^3]. *)
Definition initialPositions (random : nat -> R) (k : nat) : list R :=
  map (fun j => (random (k + j)%nat - 0.5) * 10) (seq 0 (PARTICLE_COUNT * 3)).

(** The target cloud has one point per particle. *)
Definition aligned (ref : Ref) : Prop :=
  length (targetPositions ref) = (PARTICLE_COUNT * 3)%nat.

(** ** The component as a whole *)

(** What happens to the simulation state after mount: a display refresh
    calls [animate] with the clock reading, the perception pipeline calls
    [onResults], or the shape effect of lines 98-101 runs.  [k] is the
    number of [Math.random()] calls made before that regeneration. *)
Inductive Event : Type :=
  | Tick (time : R)
  | Frame (now : Z) (results : Results)
  | Select (activeShape : string) (k : nat).

(** The simulation state: React state and [stateRef], and the live
    position buffer [currentPositions] owned by the effect of line 108. *)
Record System : Type := mkSystem {
  world : World;
  live : list R
}.

Definition initialSystem (random : nat -> R) (k : nat) : System :=
  {| world := initialWorld random; live := initialPositions random k |}.

(** One event; [None] when the tick reads past the end of a buffer. *)
Definition step (random : nat -> R) (e : Event) (s : System) : option System :=
  match e with
  | Tick time =>
      positions ← animate (stateRef (world s)) time (live s);
      Some {| world := world s; live := positions |}
  | Frame now results =>
      Some {| world := fst (onResults now results (world s)); live := live s |}
  | Select activeShape k =>
      Some {| world := fst (selectShape random activeShape k (world s));
              live := live s |}
  end.

Fixpoint run (random : nat -> R) (events : list Event) (s : System)
  : option System :=
  match events with
  | [] => Some s
  | e :: rest => s' ← step random e s; run random rest s'
  end.

(** The target cloud is a generated cloud of the current shape. *)
Definition generatedFor (random : nat -> R) (ref : Ref) : Prop :=
  exists k,
    targetPositions ref
    = fst (generateShape random (shape ref) PARTICLE_COUNT k).

(** A bound on every live coordinate: radius 4 times the largest explosion
    factor 3, plus the jitter amplitude. *)
Definition liveBound : R := 12.05.

(** Both buffers hold one point per particle. *)
Definition sized (s : System) : Prop :=
  aligned (stateRef (world s)) /\
  length (live s) = (PARTICLE_COUNT * 3)%nat.

(** Every live coordinate is within [liveBound] of 0. *)
Definition boundedLive (s : System) : Prop :=
  Forall (fun c => Rabs c <= liveBound) (live s).

(** Whether a frame reports a hand (the test of line 225). *)
Definition handReported (results : Results) : bool :=
  match multiHandLandmarks results with
  | Some (_ :: _) => true
  | _ => false
  end.

(** A frame whose first hand has the given thumb tip and index tip. *)
Definition showsTips (thumb index : Landmark.t) (results : Results) : Prop :=
  exists landmarks rest,
    multiHandLandmarks results = Some (landmarks :: rest) /\
    landmarkAt landmarks 4 = Some thumb /\
    landmarkAt landmarks 8 = Some index.

(** Translation of a landmark by a vector. *)
Definition translate (v : Landmark.t) (p : Landmark.t) : Landmark.t :=
  {| Landmark.x := Landmark.x p + Landmark.x v;
     Landmark.y := Landmark.y p + Landmark.y v;
     Landmark.z := Landmark.z p + Landmark.z v |}.

(** ** The rendered overlay (lines 338-358, 425) *)

(** The status pill of line 340. *)
Definition statusLabel (u : Ui) : string :=
  match handStatus u with
  | detected => "HAND DETECTED"
  | searching => "SEARCHING HAND..."
  end.

(** The debug ring of lines 349-358: rendered only while [handStatus] is
    [detected]; its width and height in pixels. *)
Definition debugRing (u : Ui) : option R :=
  match handStatus u with
  | detected => Some (100 + gestureValue u * 200)
  | searching => None
  end.

(** ** Start of the perception pipeline (lines 259-293) *)

(** What one call of [initMediaPipe] finds in the page: whether the
    MediaPipe scripts have defined [window.Hands] and [window.Camera], and
    whether [videoRef.current] is set. *)
Record Page : Type := mkPage {
  handsLoaded : bool;
  cameraLoaded : bool;
  videoMounted : bool
}.

(** How one call ends: it re-schedules itself after a delay in
    milliseconds, or it creates [hands] and registers [onResults]; then
    [cameraStarted] tells whether [cameraUtils.start()] was reached. *)
Inductive InitOutcome : Type :=
  | Rescheduled (delay : Z)
  | Registered (cameraStarted : bool) (completion : Completion).

(** One call.  [new window.Camera(...)] on an undefined [window.Camera]
    throws a [TypeError], after [hands.onResults(onResults)]. *)
Definition initMediaPipe_call (page : Page) : InitOutcome :=
  if negb (handsLoaded page) then Rescheduled 100
  else if videoMounted page then
    if cameraLoaded page then Registered true Normal
    else Registered false (Throw TypeError)
  else Registered false Normal.

(** The chain of calls started at line 293: [pages n] is the page at the
    [n]-th call, [elapsed] the sum of the delays waited so far.  The result
    is the number of the call that registered the callback, the time
    waited and how that call ended; [None] while still polling after
    [fuel] calls. *)
Fixpoint initMediaPipe (pages : nat -> Page) (fuel n : nat) (elapsed : Z)
  : option (nat * Z * InitOutcome) :=
  match fuel with
  | O => None
  | S fuel' =>
      match initMediaPipe_call (pages n) with
      | Rescheduled delay =>
          initMediaPipe pages fuel' (S n) (elapsed + delay)%Z
      | outcome => Some (n, elapsed, outcome)
      end
  end.

(** ** Coordinates of a particle *)

Inductive Axis : Set := AxisX | AxisY | AxisZ.

(** One coordinate of a point. *)
Definition coord (c : Axis) (p : Point) : R :=
  let '(x, y, z) := p in
  match c with
  | AxisX => x
  | AxisY => y
  | AxisZ => z
  end.

(** ** Sample inputs *)

(** A hand of MediaPipe's 21 landmarks, all at the origin except the thumb
    tip, which sits at distance [d] along the x axis. *)
Definition pinchHand (d : R) : Landmarks :=
  <[4%nat := Some (Landmark.mk d 0 0)]>
    (replicate 21 (Some (Landmark.mk 0 0 0))).

Definition pinchFrame (d : R) : Results :=
  {| multiHandLandmarks := Some [pinchHand d] |}.

(** A frame that reports one hand with an empty landmark array. *)
Definition emptyHandFrame : Results :=
  {| multiHandLandmarks := Some [[]] |}.

(** A frame that reports no hand. *)
Definition noHandFrame : Results := {| multiHandLandmarks := None |}.

(** "The frame is treated as no detection": the callback does on it what
    it does on a frame without a hand. *)
Definition treatedAsNoDetection (now : Z) (results : Results) (w : World)
  : Prop :=
  onResults now results w = onResults now noHandFrame w.

(** * Properties *)

(** ** Real-number helpers *)

Lemma Rabs_mult_le (a b A B : R) :
  Rabs a <= A -> Rabs b <= B -> Rabs (a * b) <= A * B.
Proof.
  intros Ha Hb. rewrite Rabs_mult.
  pose proof (Rabs_pos a). pose proof (Rabs_pos b). nra.
Qed.

Lemma Rabs_sin_le (x : R) : Rabs (sin x) <= 1.
Proof. apply Rabs_le. pose proof (SIN_bound x). lra. Qed.

Lemma Rabs_cos_le (x : R) : Rabs (cos x) <= 1.
Proof. apply Rabs_le. pose proof (COS_bound x). lra. Qed.

Lemma Rabs_unit (u : R) : 0 <= u < 1 -> Rabs u <= 1.
Proof. intros H. apply Rabs_le. lra. Qed.

Lemma sin_cos_pow2 (x : R) : sin x ^ 2 + cos x ^ 2 = 1.
Proof. pose proof (sin2_cos2 x) as H. unfold Rsqr in H. lra. Qed.

(** [Math.cbrt] is a cube root. *)
Lemma cbrt_cube (x : R) : Math.cbrt x ^ 3 = x.
Proof.
  assert (Hpos : forall y, 0 < y -> exp (ln y / 3) ^ 3 = y).
  { intros y Hy. simpl. rewrite Rmult_1_r, <- !exp_plus.
    replace (ln y / 3 + (ln y / 3 + ln y / 3)) with (ln y) by lra.
    now apply exp_ln. }
  unfold Math.cbrt. destruct (Rlt_dec 0 x) as [Hx | Hx].
  - now apply Hpos.
  - destruct (Rlt_dec x 0) as [Hn | Hn].
    + assert (Hm : 0 < - x) by lra. specialize (Hpos _ Hm).
      replace ((- exp (ln (- x) / 3)) ^ 3)
        with (- (exp (ln (- x) / 3) ^ 3)) by ring.
      rewrite Hpos. ring.
    + replace x with 0 by lra. ring.
Qed.

(** On the range of [Math.random()] the cube root stays in the unit
    interval. *)
Lemma cbrt_unit (u : R) : 0 <= u < 1 -> 0 <= Math.cbrt u < 1.
Proof.
  intros [H0 H1]. unfold Math.cbrt.
  destruct (Rlt_dec 0 u) as [Hu | Hu].
  - split; [left; apply exp_pos |].
    rewrite <- exp_0. apply exp_increasing.
    assert (ln u < 0) by (rewrite <- ln_1; now apply ln_increasing).
    lra.
  - destruct (Rlt_dec u 0); lra.
Qed.

(** The clamp of line 240 lands in [[0,1]] whatever the distance. *)
Lemma pinchFactor_range (dist : R) : 0 <= pinchFactor dist <= 1.
Proof.
  unfold pinchFactor, Math.max, Math.min. split.
  - apply Rmax_l.
  - apply Rmax_lub; [lra | apply Rmin_l].
Qed.

Lemma autoFactor_range (now : Z) : 0 <= autoFactor now <= 1.
Proof.
  unfold autoFactor. pose proof (SIN_bound (IZR now / 1000 * 2)). lra.
Qed.

(** A step of exponential smoothing with a weight in [[0,1]] keeps the
    value between its old value and the target. *)
Lemma smooth_range (g t w : R) :
  0 <= w <= 1 -> 0 <= g <= 1 -> 0 <= t <= 1 -> 0 <= g + (t - g) * w <= 1.
Proof. intros. nra. Qed.

(** ** The shape generator *)

Section GeneratorFacts.

Variable random : nat -> R.

Lemma shapePoint_counter (type : string) (k : nat) :
  snd (shapePoint random type k) = (k + drawsPerPoint type)%nat.
Proof.
  unfold shapePoint, drawsPerPoint.
  destruct (String.eqb type "heart"); [reflexivity |].
  destruct (String.eqb type "flower"); [reflexivity |].
  destruct (String.eqb type "fireworks"); [reflexivity |].
  simpl. lia.
Qed.

(** An identifier other than the three known ones gives the origin and
    draws nothing. *)
Lemma shapePoint_unknown (type : string) (k : nat) :
  type <> "heart"%string -> type <> "flower"%string ->
  type <> "fireworks"%string ->
  shapePoint random type k = ((0, 0, 0), k).
Proof.
  intros Hh Hf Hw. unfold shapePoint.
  apply String.eqb_neq in Hh, Hf, Hw. now rewrite Hh, Hf, Hw.
Qed.

Lemma storePoint_length (positions : list R) (i : nat) (p : Point) :
  length (storePoint positions i p) = length positions.
Proof.
  destruct p as [[x y] z]. unfold storePoint.
  now rewrite !length_insert.
Qed.

(** Stores at particle [i] leave every component of other particles alone. *)
Lemma storePoint_lookup_ne (positions : list R) (i : nat) (p : Point) (j : nat) :
  (j < i * 3 \/ i * 3 + 3 <= j)%nat ->
  storePoint positions i p !! j = positions !! j.
Proof.
  intros Hj. destruct p as [[x y] z]. unfold storePoint.
  rewrite !list_lookup_insert_ne by lia. reflexivity.
Qed.

Lemma storePoint_pointAt (positions : list R) (i : nat) (p : Point) :
  (i * 3 + 3 <= length positions)%nat ->
  Spec.pointAt (storePoint positions i p) i = Some p.
Proof.
  intros Hlen. destruct p as [[x y] z]. unfold Spec.pointAt.
  assert (H0 : storePoint positions i (x, y, z) !! (i * 3)%nat = Some x).
  { unfold storePoint. rewrite !list_lookup_insert_ne by lia.
    apply list_lookup_insert_eq. lia. }
  assert (H1 : storePoint positions i (x, y, z) !! (i * 3 + 1)%nat = Some y).
  { unfold storePoint. rewrite list_lookup_insert_ne by lia.
    apply list_lookup_insert_eq. rewrite length_insert. lia. }
  assert (H2 : storePoint positions i (x, y, z) !! (i * 3 + 2)%nat = Some z).
  { unfold storePoint. apply list_lookup_insert_eq.
    rewrite !length_insert. lia. }
  rewrite H0, H1, H2. reflexivity.
Qed.

Lemma pointAt_ext (l1 l2 : list R) (i : nat) :
  (forall j, (i * 3 <= j < i * 3 + 3)%nat -> l1 !! j = l2 !! j) ->
  Spec.pointAt l1 i = Spec.pointAt l2 i.
Proof.
  intros H. unfold Spec.pointAt.
  rewrite (H (i * 3)%nat), (H (i * 3 + 1)%nat), (H (i * 3 + 2)%nat) by lia.
  reflexivity.
Qed.

Lemma fillShape_length (type : string) (n : nat) :
  forall i positions k,
    length (fst (fillShape random type n i positions k)) = length positions.
Proof.
  induction n as [| n IH]; intros i positions k; simpl; [reflexivity |].
  destruct (shapePoint random type k) as [p k'].
  rewrite IH. apply storePoint_length.
Qed.

Lemma fillShape_counter (type : string) (n : nat) :
  forall i positions k,
    snd (fillShape random type n i positions k)
    = (k + n * drawsPerPoint type)%nat.
Proof.
  induction n as [| n IH]; intros i positions k; simpl; [lia |].
  pose proof (shapePoint_counter type k) as Hk.
  destruct (shapePoint random type k) as [p k']. simpl in Hk.
  rewrite IH, Hk. lia.
Qed.

(** The loop from index [i] never touches the components of particles
    below [i]. *)
Lemma fillShape_lookup_before (type : string) (n : nat) :
  forall i positions k j,
    (j < i * 3)%nat ->
    fst (fillShape random type n i positions k) !! j = positions !! j.
Proof.
  induction n as [| n IH]; intros i positions k j Hj; simpl; [reflexivity |].
  destruct (shapePoint random type k) as [p k'].
  rewrite IH by lia. apply storePoint_lookup_ne. lia.
Qed.

(** Particle [j] of the result is the point computed in iteration [j],
    from the draws that iteration made. *)
Lemma fillShape_pointAt (type : string) (n : nat) :
  forall i positions k j,
    ((i + n) * 3 <= length positions)%nat ->
    (i <= j < i + n)%nat ->
    Spec.pointAt (fst (fillShape random type n i positions k)) j
    = Some (fst (shapePoint random type (k + (j - i) * drawsPerPoint type))).
Proof.
  induction n as [| n IH]; intros i positions k j Hlen Hj; [lia |].
  simpl. pose proof (shapePoint_counter type k) as Hk.
  destruct (shapePoint random type k) as [p k'] eqn:Hp. simpl in Hk.
  destruct (decide (j = i)) as [-> | Hne].
  - rewrite (pointAt_ext _ (storePoint positions i p)).
    + rewrite storePoint_pointAt by lia.
      replace (k + (i - i) * drawsPerPoint type)%nat with k by lia.
      now rewrite Hp.
    + intros j' Hj'. apply fillShape_lookup_before. lia.
  - rewrite IH by (rewrite ?storePoint_length; lia).
    do 3 f_equal. rewrite Hk. nia.
Qed.

Lemma generateShape_length (type : string) (count k : nat) :
  length (fst (generateShape random type count k)) = (count * 3)%nat.
Proof.
  unfold generateShape. rewrite fillShape_length. apply length_replicate.
Qed.

Lemma generateShape_pointAt (type : string) (count k i : nat) :
  (i < count)%nat ->
  Spec.pointAt (fst (generateShape random type count k)) i
  = Some (fst (shapePoint random type (k + i * drawsPerPoint type))).
Proof.
  intros Hi. unfold generateShape.
  rewrite fillShape_pointAt by (rewrite ?length_replicate; lia).
  do 4 f_equal. lia.
Qed.

(** Storing the origin into a zero-filled array changes nothing. *)
Lemma storePoint_zero (n i : nat) :
  storePoint (replicate n 0) i (0, 0, 0) = replicate n 0.
Proof.
  unfold storePoint.
  assert (H : forall j, <[j := 0]> (replicate n 0) = replicate n 0).
  { intros j. apply list_insert_id'. intros Hj.
    apply lookup_replicate_2. now rewrite length_replicate in Hj. }
  now rewrite !H.
Qed.

Lemma fillShape_unknown (type : string) (n : nat) :
  type <> "heart"%string -> type <> "flower"%string ->
  type <> "fireworks"%string ->
  forall i m k,
    fillShape random type n i (replicate m 0) k = (replicate m 0, k).
Proof.
  intros Hh Hf Hw.
  induction n as [| n IH]; intros i m k; simpl; [reflexivity |].
  rewrite shapePoint_unknown by assumption.
  rewrite storePoint_zero. apply IH.
Qed.

Lemma fillShape_Forall (P : R -> Prop) (type : string) (n : nat) :
  (forall k, let '(x, y, z) := fst (shapePoint random type k) in
             P x /\ P y /\ P z) ->
  forall i positions k,
    Forall P positions ->
    Forall P (fst (fillShape random type n i positions k)).
Proof.
  intros HP. induction n as [| n IH]; intros i positions k Hall; simpl;
    [assumption |].
  specialize (HP k). destruct (shapePoint random type k) as [[[x y] z] k'].
  simpl in HP. destruct HP as (Hx & Hy & Hz).
  apply IH. unfold storePoint. now repeat apply Forall_insert.
Qed.

Hypothesis random_range : forall k, 0 <= random k < 1.

(** Every generated point is bounded, whatever the shape identifier. *)
Lemma shapePoint_bounded (type : string) (k : nat) :
  Spec.boundedPoint (fst (shapePoint random type k)).
Proof.
  unfold shapePoint, Spec.boundedPoint, Spec.coordBound.
  destruct (String.eqb type "heart"); [| destruct (String.eqb type "flower");
    [| destruct (String.eqb type "fireworks")]]; cbn [fst].
  - set (t := random k * PI * 2).
    pose proof (Rabs_unit _ (random_range (k + 3))) as Hd.
    pose proof (Rabs_sin_le t) as Hs.
    assert (Hs3 : Rabs (sin t ^ 3) <= 1).
    { rewrite <- RPow_abs. pose proof (Rabs_pos (sin t)).
      assert (Rabs (sin t) ^ 3 <= 1 ^ 3) by (apply pow_incr; lra). lra. }
    repeat split.
    + replace (21 / 4) with (21 / 4 * 1) by lra.
      apply Rabs_mult_le; [| exact Hd].
      replace (16 * sin t ^ 3 * 0.25) with (4 * sin t ^ 3) by lra.
      rewrite Rabs_mult, (Rabs_pos_eq 4) by lra. lra.
    + replace (21 / 4) with (21 / 4 * 1) by lra.
      apply Rabs_mult_le; [| exact Hd].
      apply Rabs_le.
      pose proof (COS_bound t). pose proof (COS_bound (2 * t)).
      pose proof (COS_bound (3 * t)). pose proof (COS_bound (4 * t)). lra.
    + replace (21 / 4) with (21 / 4 * 1) by lra.
      apply Rabs_mult_le; [| exact Hd].
      replace (21 / 4) with (21 / 4 * 1) by lra.
      apply Rabs_mult_le; [| exact Hs].
      apply Rabs_le. pose proof (random_range (k + 2)). lra.
  - set (theta := random k * PI * 2). set (phi := random (k + 1) * PI).
    assert (Hr : Rabs (3 * cos (4 * theta) + 1) <= 4).
    { apply Rabs_le. pose proof (COS_bound (4 * theta)). lra. }
    pose proof (Rabs_sin_le phi). pose proof (Rabs_cos_le phi).
    pose proof (Rabs_sin_le theta). pose proof (Rabs_cos_le theta).
    repeat split.
    + replace (21 / 4) with (21 / 4 * 1) by lra.
      apply Rabs_mult_le; [| assumption].
      replace (21 / 4) with (21 / 4 * 1) by lra.
      apply Rabs_mult_le; [lra | assumption].
    + replace (21 / 4) with (21 / 4 * 1) by lra.
      apply Rabs_mult_le; [| apply Rabs_le; lra].
      replace (21 / 4) with (21 / 4 * 1) by lra.
      apply Rabs_mult_le; [lra | assumption].
    + replace (21 / 4) with (21 / 4 * 1) by lra.
      apply Rabs_mult_le; [| assumption].
      replace (21 / 4) with (21 / 4 * 1) by lra.
      apply Rabs_mult_le; [lra | assumption].
  - set (theta := random (k + 1) * 2 * PI).
    set (phi := acos (2 * random (k + 2) - 1)).
    assert (Hr : Rabs (4 * Math.cbrt (random k)) <= 4).
    { apply Rabs_le. pose proof (cbrt_unit _ (random_range k)). lra. }
    pose proof (Rabs_sin_le phi). pose proof (Rabs_cos_le phi).
    pose proof (Rabs_sin_le theta). pose proof (Rabs_cos_le theta).
    repeat split.
    + replace (21 / 4) with (21 / 4 * 1) by lra.
      apply Rabs_mult_le; [| assumption].
      replace (21 / 4) with (21 / 4 * 1) by lra.
      apply Rabs_mult_le; [lra | assumption].
    + replace (21 / 4) with (21 / 4 * 1) by lra.
      apply Rabs_mult_le; [| assumption].
      replace (21 / 4) with (21 / 4 * 1) by lra.
      apply Rabs_mult_le; [lra | assumption].
    + replace (21 / 4) with (21 / 4 * 1) by lra.
      apply Rabs_mult_le; [lra | assumption].
  - rewrite Rabs_R0. lra.
Qed.

(** The argument of [Math.acos] at line 65 is inside its domain. *)
Lemma fireworks_acos_domain (k : nat) : -1 <= 2 * random k - 1 <= 1.
Proof. pose proof (random_range k). lra. Qed.

(** A fireworks point lies at distance [4 * cbrt u] from the origin, [u]
    being the first of its three draws. *)
Lemma fireworks_norm (k : nat) :
  Spec.norm (fst (shapePoint random "fireworks" k))
  = 4 * Math.cbrt (random k).
Proof.
  unfold shapePoint. cbn [String.eqb Ascii.eqb Bool.eqb fst].
  set (r := 4 * Math.cbrt (random k)).
  set (theta := random (k + 1) * 2 * PI).
  set (phi := acos (2 * random (k + 2) - 1)).
  unfold Spec.norm.
  pose proof (sin_cos_pow2 theta) as Ht. pose proof (sin_cos_pow2 phi) as Hp.
  replace ((r * sin phi * cos theta) ^ 2 + (r * sin phi * sin theta) ^ 2
           + (r * cos phi) ^ 2)
    with (r ^ 2 * (sin phi ^ 2 * (sin theta ^ 2 + cos theta ^ 2) + cos phi ^ 2))
    by ring.
  rewrite Ht, Rmult_1_r, Hp, Rmult_1_r.
  apply sqrt_pow2. pose proof (cbrt_unit _ (random_range k)). subst r. lra.
Qed.

End GeneratorFacts.

(** C5: for every shape identifier and every count (so for 0, 1 and 4000),
    [generateShape] returns an array of [count * 3] components, that is
    exactly [count] points; every coordinate is a bounded real (at most
    21/4 in absolute value, so finite); and an identifier that is none of
    'heart', 'flower', 'fireworks' gives the all-zero array. *)
Theorem generateShape_count_finite (random : nat -> R)
    (random_range : forall k, 0 <= random k < 1)
    (type : string) (count k : nat) :
  let positions := fst (generateShape random type count k) in
  length positions = (count * 3)%nat /\
  (forall i, (i < count)%nat ->
     exists p, Spec.pointAt positions i = Some p /\ Spec.boundedPoint p) /\
  (forall j, (count <= j)%nat -> Spec.pointAt positions j = None) /\
  Forall (fun c => Rabs c <= Spec.coordBound) positions /\
  (type <> "heart"%string -> type <> "flower"%string ->
   type <> "fireworks"%string ->
   positions = replicate (count * 3) 0).
Proof.
  cbv zeta. split; [apply generateShape_length |]. split; [| split; [| split]].
  - intros i Hi. eexists. split; [now apply generateShape_pointAt |].
    now apply shapePoint_bounded.
  - intros j Hj. unfold Spec.pointAt.
    rewrite (lookup_ge_None_2 _ (j * 3)); [reflexivity |].
    rewrite generateShape_length. lia.
  - unfold generateShape. apply fillShape_Forall.
    + intros k'. pose proof (shapePoint_bounded random random_range type k') as H.
      unfold Spec.boundedPoint in H.
      now destruct (fst (shapePoint random type k')) as [[x y] z].
    + apply Forall_replicate. rewrite Rabs_R0. unfold Spec.coordBound. lra.
  - intros Hh Hf Hw. unfold generateShape.
    now rewrite fillShape_unknown.
Qed.

Lemma generateShape_count_finite_witness :
  (forall k : nat, 0 <= (fun _ : nat => / 2) k < 1) /\
  length (fst (generateShape (fun _ => / 2) "flower" 1 0)) = 3%nat.
Proof.
  split; [intros k; lra |].
  apply (generateShape_count_finite (fun _ => / 2)); intros k; lra.
Defined.

(** C6: every point of [generateShape 'fireworks' count] lies at distance
    [4 * cbrt u] from the origin, [u] being the draw it took its radius
    from, and so at distance at most the sphere radius 4. *)
Theorem fireworks_within_radius (random : nat -> R)
    (random_range : forall k, 0 <= random k < 1)
    (count k i : nat) :
  (i < count)%nat ->
  exists p,
    Spec.pointAt (fst (generateShape random "fireworks" count k)) i = Some p /\
    Spec.norm p = 4 * Math.cbrt (random (k + i * 3)%nat) /\
    Spec.norm p <= 4.
Proof.
  intros Hi. eexists. split; [now apply generateShape_pointAt |].
  change (drawsPerPoint "fireworks") with 3%nat.
  rewrite fireworks_norm by assumption. split; [reflexivity |].
  pose proof (cbrt_unit _ (random_range (k + i * 3)%nat)). lra.
Qed.

Lemma fireworks_within_radius_witness :
  (forall k : nat, 0 <= (fun _ : nat => / 2) k < 1) /\
  exists p,
    Spec.pointAt (fst (generateShape (fun _ => / 2) "fireworks" 2 0)) 1
      = Some p /\
    Spec.norm p = 4 * Math.cbrt (/ 2) /\
    Spec.norm p <= 4.
Proof.
  split; [intros k; lra |].
  apply (fireworks_within_radius (fun _ => / 2)); [intros k; lra | lia].
Defined.

(** ** The gesture callback *)

Lemma clamp_cases (r : R) : Math.max 0 (Math.min 1 r) = Spec.clamp01 r.
Proof.
  unfold Math.max, Math.min, Spec.clamp01.
  destruct (Rle_dec r 0) as [H0 | H0].
  - rewrite Rmin_right by lra. apply Rmax_left. lra.
  - destruct (Rle_dec 1 r) as [H1 | H1].
    + rewrite Rmin_left by lra. apply Rmax_right. lra.
    + rewrite Rmin_right by lra. apply Rmax_right. lra.
Qed.

(** The callback never touches [shape] or [targetPositions]. *)
Lemma onResults_closure_frame (v : R) (now : Z) (results : Results) (w : World) :
  let w' := fst (onResults_closure v now results w) in
  shape (stateRef w') = shape (stateRef w) /\
  targetPositions (stateRef w') = targetPositions (stateRef w).
Proof.
  unfold onResults_closure.
  destruct (multiHandLandmarks results) as [[| landmarks rest] |];
    try (split; reflexivity).
  destruct (landmarkAt landmarks 4), (landmarkAt landmarks 8);
    try (split; reflexivity).
  cbv zeta. destruct (Rgt_dec _ _); split; reflexivity.
Qed.

(** One callback keeps [gestureFactor] in the unit interval, whichever
    branch runs and however it completes. *)
Lemma onResults_range (now : Z) (results : Results) (w : World) :
  0 <= gestureFactor (stateRef w) <= 1 ->
  0 <= gestureFactor (stateRef (fst (onResults now results w))) <= 1.
Proof.
  intros Hg. unfold onResults, onResults_closure.
  destruct (multiHandLandmarks results) as [[| landmarks rest] |].
  - simpl. apply smooth_range; [lra | exact Hg | apply autoFactor_range].
  - destruct (landmarkAt landmarks 4) as [thumb |],
             (landmarkAt landmarks 8) as [index |]; try exact Hg.
    cbv zeta. destruct (Rgt_dec _ _); simpl;
      (apply smooth_range; [lra | exact Hg | apply pinchFactor_range]).
  - simpl. apply smooth_range; [lra | exact Hg | apply autoFactor_range].
Qed.

Lemma perceive_range (frames : list (Z * Results)) :
  forall w,
    0 <= gestureFactor (stateRef w) <= 1 ->
    0 <= gestureFactor (stateRef (perceive frames w)) <= 1.
Proof.
  induction frames as [| [now results] rest IH]; intros w Hg; simpl.
  - exact Hg.
  - apply IH. now apply onResults_range.
Qed.

(** C2: the raw factor of a detected frame is in [[0,1]] for any distance,
    negative or out of range included; and from the initial state, after
    any finite sequence of callbacks -- frames with a hand at any landmark
    coordinates, frames without a hand at any clock value, in any order --
    the stored [gestureFactor] is in [[0,1]]. *)
Theorem gestureFactor_always_in_unit_interval
    (random : nat -> R) (frames : list (Z * Results)) (dist : R) :
  0 <= pinchFactor dist <= 1 /\
  0 <= gestureFactor (stateRef (perceive frames (initialWorld random))) <= 1.
Proof.
  split; [apply pinchFactor_range |].
  apply perceive_range. simpl. lra.
Qed.

(** C3: on a frame that reports a hand with landmarks 4 and 8, the callback
    completes normally, takes the Euclidean distance between the two
    landmarks, maps it to [(dist - 0.03) / 0.15], clamps that to [[0,1]],
    moves [gestureFactor] to [old + 0.2 * (raw - old)] and sets
    [handStatus] to [detected]. *)
Theorem onResults_detected (now : Z) (results : Results) (w : World)
    (landmarks : Landmarks) (rest : list Landmarks)
    (thumb index : Landmark.t) :
  multiHandLandmarks results = Some (landmarks :: rest) ->
  landmarks !! 4%nat = Some (Some thumb) ->
  landmarks !! 8%nat = Some (Some index) ->
  let dist :=
    sqrt (Rsqr (Landmark.x thumb - Landmark.x index) +
          Rsqr (Landmark.y thumb - Landmark.y index) +
          Rsqr (Landmark.z thumb - Landmark.z index)) in
  let raw := Spec.clamp01 ((dist - 0.03) / 0.15) in
  let old := gestureFactor (stateRef w) in
  let '(w', completion) := onResults now results w in
  completion = Normal /\
  0 <= raw <= 1 /\
  gestureFactor (stateRef w') = old + 0.2 * (raw - old) /\
  handStatus (ui w') = detected.
Proof.
  intros Hres H4 H8. cbv zeta.
  unfold onResults, onResults_closure, landmarkAt.
  rewrite Hres, H4, H8. cbv zeta.
  assert (Hd : pinchDistance thumb index
               = sqrt (Rsqr (Landmark.x thumb - Landmark.x index) +
                       Rsqr (Landmark.y thumb - Landmark.y index) +
                       Rsqr (Landmark.z thumb - Landmark.z index))).
  { unfold pinchDistance, Rsqr. f_equal. ring. }
  assert (Hf : pinchFactor (pinchDistance thumb index)
               = Spec.clamp01 ((pinchDistance thumb index - 0.03) / 0.15)).
  { unfold pinchFactor. apply clamp_cases. }
  rewrite <- Hd, <- Hf.
  destruct (Rgt_dec _ _); simpl;
    (split; [reflexivity |]; split; [apply pinchFactor_range |];
     split; [ring | reflexivity]).
Qed.

(** C7: on a frame without a hand the callback completes normally, sets
    [handStatus] to [searching] and moves [gestureFactor] to
    [old + 0.05 * (auto - old)], where [auto = (sin (2 * t) + 1) / 2] for
    [t] the wall-clock time in seconds, a value of [[0,1]]; the surfaced
    gesture value is left alone. *)
Theorem onResults_idle (now : Z) (results : Results) (w : World) :
  noHand results ->
  let t := IZR now / 1000 in
  let auto := (sin (2 * t) + 1) / 2 in
  let old := gestureFactor (stateRef w) in
  let '(w', completion) := onResults now results w in
  completion = Normal /\
  handStatus (ui w') = searching /\
  0 <= auto <= 1 /\
  gestureFactor (stateRef w') = old + 0.05 * (auto - old) /\
  gestureValue (ui w') = gestureValue (ui w).
Proof.
  intros Hno. cbv zeta. unfold onResults, onResults_closure.
  assert (Ha : autoFactor now = (sin (2 * (IZR now / 1000)) + 1) / 2).
  { unfold autoFactor. now rewrite (Rmult_comm 2). }
  rewrite <- Ha.
  destruct Hno as [-> | ->]; simpl;
    (split; [reflexivity |]; split; [reflexivity |];
     split; [apply autoFactor_range |]; split; [ring | reflexivity]).
Qed.

Lemma onResults_detected_witness :
  multiHandLandmarks (pinchFrame 0.105) = Some [pinchHand 0.105] /\
  pinchHand 0.105 !! 4%nat = Some (Some (Landmark.mk 0.105 0 0)) /\
  pinchHand 0.105 !! 8%nat = Some (Some (Landmark.mk 0 0 0)) /\
  let '(w', completion) :=
    onResults 0 (pinchFrame 0.105) (initialWorld (fun _ => 0)) in
  completion = Normal /\ handStatus (ui w') = detected.
Proof.
  do 3 (split; [reflexivity |]).
  pose proof (onResults_detected 0 (pinchFrame 0.105)
                (initialWorld (fun _ => 0)) (pinchHand 0.105) []
                (Landmark.mk 0.105 0 0) (Landmark.mk 0 0 0)
                eq_refl eq_refl eq_refl) as H.
  cbv zeta in H.
  destruct (onResults 0 (pinchFrame 0.105) (initialWorld (fun _ => 0)))
    as [w' completion].
  destruct H as (Hc & _ & _ & Hs). split; assumption.
Defined.

Lemma onResults_idle_witness :
  noHand noHandFrame /\
  let '(w', completion) :=
    onResults 1500 noHandFrame (initialWorld (fun _ => 0)) in
  completion = Normal /\ handStatus (ui w') = searching.
Proof.
  split; [left; reflexivity |].
  pose proof (onResults_idle 1500 noHandFrame (initialWorld (fun _ => 0))
                (or_introl eq_refl)) as H.
  cbv zeta in H.
  destruct (onResults 1500 noHandFrame (initialWorld (fun _ => 0)))
    as [w' completion].
  destruct H as (Hc & Hs & _). split; assumption.
Defined.

(** [handStatus] after a callback tells whether the frame reported a hand. *)
Lemma onResults_handStatus (now : Z) (results : Results) (w : World) :
  handStatus (ui (fst (onResults now results w)))
  = if handReported results then detected else searching.
Proof.
  unfold onResults, onResults_closure, handReported.
  destruct (multiHandLandmarks results) as [[| landmarks rest] |];
    try reflexivity.
  destruct (landmarkAt landmarks 4), (landmarkAt landmarks 8);
    try reflexivity.
  cbv zeta. destruct (Rgt_dec _ _); reflexivity.
Qed.

(** With a landmark missing the callback has already set [handStatus] to
    [detected] when reading [thumb.x] or [index.x] throws; nothing else
    is written. *)
Lemma onResults_closure_malformed (v : R) (now : Z) (results : Results)
    (w : World) :
  malformed results ->
  onResults_closure v now results w
  = (setHandStatus detected w, Throw TypeError).
Proof.
  intros (landmarks & rest & Hres & Hmiss).
  unfold onResults_closure. rewrite Hres.
  destruct Hmiss as [H | H]; rewrite H.
  - reflexivity.
  - now destruct (landmarkAt landmarks 4).
Qed.

(** The searching/idle treatment is given to the frames without a hand and
    to no others. *)
Lemma treatedAsNoDetection_iff (now : Z) (results : Results) (w : World) :
  treatedAsNoDetection now results w <-> noHand results.
Proof.
  unfold treatedAsNoDetection. split.
  - intros H.
    apply (f_equal (fun r => handStatus (ui (fst r)))) in H.
    cbv beta in H. rewrite !onResults_handStatus in H.
    unfold handReported, noHand in *. cbn [multiHandLandmarks noHandFrame] in H.
    destruct (multiHandLandmarks results) as [[| landmarks rest] |];
      [right; reflexivity | discriminate | left; reflexivity].
  - intros [H | H]; unfold onResults, onResults_closure; rewrite H;
      reflexivity.
Qed.

Lemma searching_iff_noHand (now : Z) (results : Results) (w : World) :
  handStatus (ui (fst (onResults now results w))) = searching
  <-> noHand results.
Proof.
  rewrite onResults_handStatus. unfold handReported, noHand.
  destruct (multiHandLandmarks results) as [[| landmarks rest] |]; split;
    intros H; try reflexivity; try discriminate;
    try (right; reflexivity); try (left; reflexivity).
  destruct H as [H | H]; discriminate.
Qed.

(** C8, as the code has it: on a frame that reports a hand whose landmark 4
    or landmark 8 is missing, the callback sets [handStatus] to
    [detected] and ends with an uncaught [TypeError]; [gestureFactor] and
    the surfaced gesture value keep their values.  Only a frame with no
    landmark set ([multiHandLandmarks] absent or empty) gets the
    searching/idle treatment: those frames, and no others, are handled
    like a frame without a hand and leave [handStatus] at [searching]. *)
Theorem onResults_malformed_throws (now : Z) (results : Results) (w : World) :
  malformed results ->
  (let '(w', completion) := onResults now results w in
   completion = Throw TypeError /\
   handStatus (ui w') = detected /\
   gestureFactor (stateRef w') = gestureFactor (stateRef w) /\
   gestureValue (ui w') = gestureValue (ui w)) /\
  ~ treatedAsNoDetection now results w /\
  (forall (now' : Z) (results' : Results) (w0 : World),
     treatedAsNoDetection now' results' w0 <-> noHand results') /\
  (forall (now' : Z) (results' : Results) (w0 : World),
     handStatus (ui (fst (onResults now' results' w0))) = searching
     <-> noHand results').
Proof.
  intros Hm. split; [| split; [| split]].
  - unfold onResults.
    rewrite onResults_closure_malformed by assumption.
    repeat split.
  - rewrite treatedAsNoDetection_iff.
    destruct Hm as (landmarks & rest & Hres & _).
    intros [H | H]; rewrite Hres in H; discriminate.
  - intros now' results' w0. apply treatedAsNoDetection_iff.
  - intros now' results' w0. apply searching_iff_noHand.
Qed.

Lemma emptyHandFrame_malformed : malformed emptyHandFrame.
Proof. exists [], []. split; [reflexivity | left; reflexivity]. Qed.

Lemma onResults_malformed_throws_witness :
  malformed emptyHandFrame /\
  let '(w', completion) :=
    onResults 0 emptyHandFrame (initialWorld (fun _ => 0)) in
  completion = Throw TypeError /\ handStatus (ui w') = detected.
Proof.
  split; [apply emptyHandFrame_malformed |].
  pose proof (onResults_malformed_throws 0 emptyHandFrame
                (initialWorld (fun _ => 0)) emptyHandFrame_malformed) as [H _].
  destruct (onResults 0 emptyHandFrame (initialWorld (fun _ => 0)))
    as [w' completion].
  destruct H as (Hc & Hs & _). split; assumption.
Defined.

(** C8, as stated, fails: the frame with an empty landmark array is
    malformed, and the callback neither completes normally nor does what
    it does on a frame without a hand. *)
Lemma malformed_not_treated_as_no_detection :
  malformed emptyHandFrame /\
  snd (onResults 0 emptyHandFrame (initialWorld (fun _ => 0)))
    = Throw TypeError /\
  handStatus (ui (fst (onResults 0 emptyHandFrame (initialWorld (fun _ => 0)))))
    = detected /\
  ~ treatedAsNoDetection 0 emptyHandFrame (initialWorld (fun _ => 0)).
Proof.
  split; [apply emptyHandFrame_malformed |].
  split; [reflexivity |]. split; [reflexivity |].
  unfold treatedAsNoDetection. intros H.
  apply (f_equal snd) in H. discriminate H.
Qed.

(** *** The surfaced gesture value *)

Lemma pinchDistance_axis (d : R) :
  0 <= d ->
  pinchDistance (Landmark.mk d 0 0) (Landmark.mk 0 0 0) = d.
Proof.
  intros Hd. unfold pinchDistance. cbn [Landmark.x Landmark.y Landmark.z].
  replace ((d - 0) ^ 2 + (0 - 0) ^ 2 + (0 - 0) ^ 2) with (d ^ 2) by ring.
  now apply sqrt_pow2.
Qed.

Lemma pinchFactor_linear (d : R) :
  0.03 <= d <= 0.18 -> pinchFactor d = (d - 0.03) / 0.15.
Proof.
  intros Hd. unfold pinchFactor. cbv zeta. rewrite clamp_cases.
  unfold Spec.clamp01.
  destruct (Rle_dec ((d - 0.03) / 0.15) 0) as [H0 | H0];
    [lra | destruct (Rle_dec 1 ((d - 0.03) / 0.15)) as [H1 | H1]; lra].
Qed.

(** What a frame with a hand surfaces depends on the raw factor alone: the
    comparison of line 246 is made against the [gestureValue] of the
    first render, which is 0, never against the value surfaced last. *)
Lemma onResults_surfaced (now : Z) (results : Results) (w : World)
    (landmarks : Landmarks) (rest : list Landmarks)
    (thumb index : Landmark.t) :
  multiHandLandmarks results = Some (landmarks :: rest) ->
  landmarkAt landmarks 4 = Some thumb ->
  landmarkAt landmarks 8 = Some index ->
  let factor := pinchFactor (pinchDistance thumb index) in
  gestureValue (ui (fst (onResults now results w)))
  = if Rgt_dec factor 0.05 then factor else gestureValue (ui w).
Proof.
  intros Hres H4 H8. cbv zeta. unfold onResults, onResults_closure.
  rewrite Hres, H4, H8. cbv zeta. cbn [gestureValue initialUi].
  set (factor := pinchFactor (pinchDistance thumb index)).
  pose proof (pinchFactor_range (pinchDistance thumb index)) as Hf.
  fold factor in Hf.
  assert (Ha : Math.abs (factor - 0) = factor).
  { unfold Math.abs. rewrite Rminus_0_r. apply Rabs_pos_eq. lra. }
  rewrite Ha. destruct (Rgt_dec factor 0.05); reflexivity.
Qed.

Lemma onResults_pinchFrame (now : Z) (d : R) (w : World) :
  0.03 + 0.05 * 0.15 < d <= 0.18 ->
  gestureValue (ui (fst (onResults now (pinchFrame d) w))) = (d - 0.03) / 0.15.
Proof.
  intros Hd.
  rewrite (onResults_surfaced now (pinchFrame d) w (pinchHand d) []
             (Landmark.mk d 0 0) (Landmark.mk 0 0 0)) by reflexivity.
  rewrite pinchDistance_axis, pinchFactor_linear by lra.
  destruct (Rgt_dec ((d - 0.03) / 0.15) 0.05); [reflexivity | lra].
Qed.

(** C9 fails on the code: after a frame of raw factor 0.5 has been
    surfaced, a frame of raw factor 0.52 -- a move of 0.02, below the
    threshold -- replaces the surfaced value all the same. *)
Theorem gestureValue_threshold_is_stale (random : nat -> R) :
  let w1 := perceive [(0%Z, pinchFrame 0.105)] (initialWorld random) in
  let w2 := perceive [(0%Z, pinchFrame 0.108)] w1 in
  gestureValue (ui w1) = 0.5 /\
  gestureValue (ui w2) = 0.52 /\
  Rabs (0.52 - gestureValue (ui w1)) <= 0.05 /\
  gestureValue (ui w2) <> gestureValue (ui w1).
Proof.
  cbv zeta. cbn [perceive].
  assert (H1 : gestureValue
                 (ui (fst (onResults 0 (pinchFrame 0.105) (initialWorld random))))
               = 0.5).
  { rewrite onResults_pinchFrame by lra. lra. }
  assert (H2 : gestureValue
                 (ui (fst (onResults 0 (pinchFrame 0.108)
                        (fst (onResults 0 (pinchFrame 0.105)
                                (initialWorld random))))))
               = 0.52).
  { rewrite onResults_pinchFrame by lra. lra. }
  rewrite H1, H2. repeat split; try lra.
  apply Rabs_le. lra.
Qed.

(** ** The initial state *)

(** C10: before any callback has run, [gestureFactor] is 1; with that
    value the breathing scalar is 1 and the explosion scalar is 3, so the
    heart target of the first ticks is the generated point itself (plus
    jitter) and a fireworks target is the point scaled by 3 (then rotated,
    plus jitter). *)
Theorem initial_gestureFactor_full_scale
    (random : nat -> R) (time : R) (i : nat) (p : Point)
    (target : list R) :
  let g := gestureFactor (stateRef (perceive [] (initialWorld random))) in
  g = 1 /\
  Spec.breathingScalar g = 1 /\
  Spec.explosionScalar g = 3 /\
  particleTarget (initialRef random) time i p = Spec.jitter time i p /\
  particleTarget
    {| shape := "fireworks"; targetPositions := target; gestureFactor := g |}
    time i p
  = Spec.jitter time i (Spec.rotateXZ (time * 0.2) (Spec.scale 3 p)).
Proof.
  cbv zeta. cbn [perceive initialWorld stateRef initialRef gestureFactor].
  unfold Spec.breathingScalar, Spec.explosionScalar.
  split; [lra |]. split; [lra |]. split; [lra |].
  destruct p as [[x y] z].
  unfold particleTarget, Spec.jitter, Spec.rotateXZ, Spec.rotate2, Spec.scale,
    initialRef.
  cbn [shape gestureFactor String.eqb Ascii.eqb Bool.eqb].
  rewrite (Rmult_comm 2 time), (Rmult_comm 1.5 time).
  split; f_equal; try f_equal; lra.
Qed.

(** ** The animation tick *)

(** The matrix of [Spec.rotate2] is a rotation: it keeps lengths and
    composes by adding angles. *)
Lemma rotate2_norm (a u v : R) :
  let '(u', v') := Spec.rotate2 a (u, v) in
  u' ^ 2 + v' ^ 2 = u ^ 2 + v ^ 2.
Proof.
  unfold Spec.rotate2. pose proof (sin_cos_pow2 a) as H.
  replace ((cos a * u - sin a * v) ^ 2 + (sin a * u + cos a * v) ^ 2)
    with ((sin a ^ 2 + cos a ^ 2) * (u ^ 2 + v ^ 2)) by ring.
  rewrite H. ring.
Qed.

Lemma rotate2_add (a b : R) (uv : R * R) :
  Spec.rotate2 a (Spec.rotate2 b uv) = Spec.rotate2 (a + b) uv.
Proof.
  destruct uv as [u v]. unfold Spec.rotate2.
  rewrite cos_plus, sin_plus. f_equal; ring.
Qed.

(** The target computed at lines 165-198 is the one the specification
    describes: scale, for fireworks rotate, then add the jitter. *)
Lemma particleTarget_spec (ref : Ref) (time : R) (i : nat) (t : Point) :
  particleTarget ref time i t
  = Spec.target (shape ref) (gestureFactor ref) time i t.
Proof.
  destruct t as [[tx ty] tz].
  unfold particleTarget, Spec.target, Spec.jitter, Spec.rotateXZ, Spec.rotate2,
    Spec.scale, Spec.explosionScalar, Spec.breathingScalar.
  rewrite (Rmult_comm 2 time), (Rmult_comm 1.5 time).
  destruct (String.eqb (shape ref) "fireworks");
    (apply (f_equal2 pair); [apply (f_equal2 pair) |]; lra).
Qed.

Lemma pointAt_Some (l : list R) (i : nat) :
  (i * 3 + 3 <= length l)%nat -> exists p, Spec.pointAt l i = Some p.
Proof.
  intros Hlen. unfold Spec.pointAt.
  destruct (lookup_lt_is_Some_2 l (i * 3)) as [x Hx]; [lia |].
  destruct (lookup_lt_is_Some_2 l (i * 3 + 1)) as [y Hy]; [lia |].
  destruct (lookup_lt_is_Some_2 l (i * 3 + 2)) as [z Hz]; [lia |].
  exists (x, y, z). now rewrite Hx, Hy, Hz.
Qed.

Lemma pointAt_inv (l : list R) (i : nat) (x y z : R) :
  Spec.pointAt l i = Some (x, y, z) ->
  l !! (i * 3)%nat = Some x /\
  l !! (i * 3 + 1)%nat = Some y /\
  l !! (i * 3 + 2)%nat = Some z.
Proof.
  unfold Spec.pointAt. intros H.
  destruct (l !! (i * 3)%nat) as [x' |]; [| discriminate].
  destruct (l !! (i * 3 + 1)%nat) as [y' |]; [| discriminate].
  destruct (l !! (i * 3 + 2)%nat) as [z' |]; [| discriminate].
  simpl in H. now inversion H.
Qed.

(** One loop iteration stores, at particle [i], its live point smoothed
    toward its target. *)
Lemma animateParticle_store (ref : Ref) (time : R) (i : nat)
    (positions : list R) (t p : Point) :
  Spec.pointAt (targetPositions ref) i = Some t ->
  Spec.pointAt positions i = Some p ->
  animateParticle ref time i positions
  = Some (storePoint positions i
            (Spec.lerpPoint p (particleTarget ref time i t))).
Proof.
  destruct t as [[tx ty] tz], p as [[x y] z]. intros Ht Hp.
  apply pointAt_inv in Ht as (Ht0 & Ht1 & Ht2).
  apply pointAt_inv in Hp as (Hp0 & Hp1 & Hp2).
  unfold animateParticle. cbv zeta. rewrite Ht0, Ht1, Ht2.
  cbn [mbind option_bind].
  destruct (particleTarget ref time i (tx, ty, tz)) as [[a b] c].
  unfold lerpAt. rewrite Hp0. cbn [mbind option_bind].
  rewrite list_lookup_insert_ne by lia. rewrite Hp1. cbn [mbind option_bind].
  rewrite !list_lookup_insert_ne by lia. rewrite Hp2.
  reflexivity.
Qed.

Section Tick.

Variable ref : Ref.

(** A run of the loop over particles [i .. i+n-1] succeeds when both
    buffers are long enough; it leaves lower indices alone and smooths
    every particle of the range toward its own target. *)
Lemma animateLoop_spec (time : R) (n : nat) :
  forall i positions,
    ((i + n) * 3 <= length (targetPositions ref))%nat ->
    ((i + n) * 3 <= length positions)%nat ->
    exists positions',
      animateLoop ref time n i positions = Some positions' /\
      length positions' = length positions /\
      (forall j, (j < i * 3)%nat -> positions' !! j = positions !! j) /\
      (forall j, (i <= j < i + n)%nat ->
         exists t p,
           Spec.pointAt (targetPositions ref) j = Some t /\
           Spec.pointAt positions j = Some p /\
           Spec.pointAt positions' j
           = Some (Spec.lerpPoint p (particleTarget ref time j t))).
Proof.
  induction n as [| n IH]; intros i positions Htl Hpl.
  - exists positions. do 3 (split; [reflexivity |]). intros j Hj. lia.
  - destruct (pointAt_Some (targetPositions ref) i) as [t Ht]; [lia |].
    destruct (pointAt_Some positions i) as [p Hp]; [lia |].
    simpl. rewrite (animateParticle_store _ _ _ _ t p Ht Hp). simpl.
    set (positions1 :=
           storePoint positions i
             (Spec.lerpPoint p (particleTarget ref time i t))).
    destruct (IH (S i) positions1) as (positions' & Hrun & Hlen & Hlow & Hpts);
      [lia | unfold positions1; rewrite storePoint_length; lia |].
    exists positions'. split; [exact Hrun |]. split.
    { rewrite Hlen. apply storePoint_length. }
    split.
    { intros j Hj. rewrite Hlow by lia. apply storePoint_lookup_ne. lia. }
    intros j Hj. destruct (decide (j = i)) as [-> | Hne].
    + exists t, p. split; [exact Ht |]. split; [exact Hp |].
      rewrite (pointAt_ext positions' positions1)
        by (intros j' Hj'; apply Hlow; lia).
      apply storePoint_pointAt. lia.
    + destruct (Hpts j) as (t' & p' & Ht' & Hp' & Hnew); [lia |].
      exists t', p'. split; [exact Ht' |]. split; [| exact Hnew].
      rewrite <- Hp'. apply pointAt_ext.
      intros j' Hj'. symmetry. apply storePoint_lookup_ne. lia.
Qed.

End Tick.

Lemma animate_spec (ref : Ref) (time : R) (positions : list R) :
  (PARTICLE_COUNT * 3 <= length (targetPositions ref))%nat ->
  (PARTICLE_COUNT * 3 <= length positions)%nat ->
  exists positions',
    animate ref time positions = Some positions' /\
    length positions' = length positions /\
    (forall i, (i < PARTICLE_COUNT)%nat ->
       exists t p,
         Spec.pointAt (targetPositions ref) i = Some t /\
         Spec.pointAt positions i = Some p /\
         Spec.pointAt positions' i
         = Some (Spec.lerpPoint p (particleTarget ref time i t))).
Proof.
  intros Htl Hpl. unfold animate.
  destruct (animateLoop_spec ref time PARTICLE_COUNT 0 positions)
    as (positions' & Hrun & Hlen & _ & Hpts); [lia | lia |].
  exists positions'. split; [exact Hrun |]. split; [exact Hlen |].
  intros i Hi. apply Hpts. lia.
Qed.

(** C1: a tick succeeds on buffers of [PARTICLE_COUNT] points and, for
    every particle index [i], smooths the live point toward the target
    obtained from the generated point by: for 'fireworks', scaling by
    [0.5 + gestureFactor * 2.5] and rotating [(tx, tz)] by the angle
    [elapsedTime * 0.2]; for another shape, scaling by
    [0.2 + gestureFactor * 0.8]; then adding [0.05 * sin (2 t + i)] to
    [tx] and [0.05 * cos (1.5 t + i)] to [ty]. *)
Theorem animate_target_rule (ref : Ref) (time : R) (positions : list R) :
  (PARTICLE_COUNT * 3 <= length (targetPositions ref))%nat ->
  (PARTICLE_COUNT * 3 <= length positions)%nat ->
  exists positions',
    animate ref time positions = Some positions' /\
    (forall i, (i < PARTICLE_COUNT)%nat ->
       exists t p,
         Spec.pointAt (targetPositions ref) i = Some t /\
         Spec.pointAt positions i = Some p /\
         particleTarget ref time i t
         = Spec.target (shape ref) (gestureFactor ref) time i t /\
         Spec.pointAt positions' i
         = Some (Spec.lerpPoint p
                   (Spec.target (shape ref) (gestureFactor ref) time i t))).
Proof.
  intros Htl Hpl.
  destruct (animate_spec ref time positions Htl Hpl)
    as (positions' & Hrun & _ & Hpts).
  exists positions'. split; [exact Hrun |].
  intros i Hi. destruct (Hpts i Hi) as (t & p & Ht & Hp & Hnew).
  exists t, p. rewrite <- particleTarget_spec. auto.
Qed.

Lemma animate_target_rule_witness :
  let ref := {| shape := "fireworks";
                targetPositions := replicate (PARTICLE_COUNT * 3) 1;
                gestureFactor := 1 |} in
  exists positions',
    animate ref 0 (replicate (PARTICLE_COUNT * 3) 0) = Some positions' /\
    Spec.pointAt positions' 7
    = Some (0.24 + 0.004 * sin 7, 0.24 + 0.004 * cos 7, 0.24).
Proof.
  cbv zeta.
  destruct (animate_target_rule
              {| shape := "fireworks";
                 targetPositions := replicate (PARTICLE_COUNT * 3) 1;
                 gestureFactor := 1 |}
              0 (replicate (PARTICLE_COUNT * 3) 0))
    as (positions' & Hrun & Hpts).
  - cbn [targetPositions]. rewrite length_replicate. lia.
  - rewrite length_replicate. lia.
  - exists positions'. split; [exact Hrun |].
    destruct (Hpts 7%nat) as (t & p & Ht & Hp & _ & Hnew);
      [unfold PARTICLE_COUNT; lia |].
    rewrite Hnew. cbn [targetPositions] in Ht.
    unfold Spec.pointAt in Ht, Hp.
    rewrite !lookup_replicate_2 in Ht by (unfold PARTICLE_COUNT; lia).
    rewrite !lookup_replicate_2 in Hp by (unfold PARTICLE_COUNT; lia).
    cbn [mbind option_bind] in Ht, Hp.
    injection Ht as <-. injection Hp as <-.
    unfold Spec.target, Spec.jitter, Spec.rotateXZ, Spec.rotate2, Spec.scale,
      Spec.explosionScalar, Spec.lerpPoint, lerp.
    cbn [shape gestureFactor String.eqb Ascii.eqb Bool.eqb].
    replace (0 * 0.2) with 0 by lra. rewrite cos_0, sin_0.
    replace (2 * 0 + INR 7) with 7 by (simpl; lra).
    replace (1.5 * 0 + INR 7) with 7 by (simpl; lra).
    f_equal. apply (f_equal2 pair); [apply (f_equal2 pair) |]; lra.
Defined.

(** *** Smoothing toward a target that does not move *)

Lemma lerp_error (live target : R) :
  lerp live target - target = 0.92 * (live - target).
Proof. unfold lerp. lra. Qed.

Lemma lerpTicks_error (target : R) (k : nat) :
  forall live,
    Spec.lerpTicks k live target - target = (live - target) * 0.92 ^ k.
Proof.
  induction k as [| k IH]; intros live; simpl.
  - lra.
  - rewrite IH, lerp_error. ring.
Qed.

Lemma lerpTicks_succ (target : R) (k : nat) :
  forall live,
    Spec.lerpTicks (S k) live target = lerp (Spec.lerpTicks k live target) target.
Proof.
  induction k as [| k IH]; intros live; [reflexivity |].
  change (Spec.lerpTicks (S (S k)) live target)
    with (Spec.lerpTicks (S k) (lerp live target) target).
  rewrite IH. reflexivity.
Qed.

(** Arithmetic of the smoothing rule alone: iterating
    [live + 0.08 * (target - live)] toward a fixed target leaves the
    initial error times [0.92 ^ k] after [k] steps, never lets the error
    grow, and leaves at most 2% of it after 50 steps. *)
Theorem lerp_fixed_target_convergence (live target : R) (k : nat) :
  lerp live target = live + 0.08 * (target - live) /\
  Spec.lerpTicks (S k) live target = lerp (Spec.lerpTicks k live target) target /\
  Rabs (Spec.lerpTicks k live target - target) = Rabs (live - target) * 0.92 ^ k /\
  Rabs (Spec.lerpTicks (S k) live target - target)
    <= Rabs (Spec.lerpTicks k live target - target) /\
  Rabs (Spec.lerpTicks 50 live target - target) <= 0.02 * Rabs (live - target).
Proof.
  assert (Hpow : forall n, 0 <= 0.92 ^ n) by (intros n; apply pow_le; lra).
  assert (Herr : forall n, Rabs (Spec.lerpTicks n live target - target)
                           = Rabs (live - target) * 0.92 ^ n).
  { intros n. rewrite lerpTicks_error, Rabs_mult.
    now rewrite (Rabs_pos_eq (0.92 ^ n)). }
  split; [unfold lerp; ring |]. split; [apply lerpTicks_succ |].
  split; [apply Herr |]. split.
  - rewrite !Herr. simpl pow.
    pose proof (Rabs_pos (live - target)). pose proof (Hpow k). nra.
  - rewrite Herr.
    assert (H50 : 0.92 ^ 50 <= 0.02) by lra.
    pose proof (Rabs_pos (live - target)). nra.
Qed.

(** In the code the depth target of a heart or flower particle is fixed
    while [gestureFactor] is: over any clock readings, the [z] of every
    particle follows [lerpTicks] toward [tz * (0.2 + gestureFactor * 0.8)]. *)
Lemma particleTarget_depth (ref : Ref) (time : R) (i : nat) (tx ty tz : R) :
  shape ref <> "fireworks"%string ->
  snd (particleTarget ref time i (tx, ty, tz))
  = tz * (0.2 + gestureFactor ref * 0.8).
Proof.
  intros Hs. apply String.eqb_neq in Hs.
  unfold particleTarget. now rewrite Hs.
Qed.

Lemma animateTicks_depth (ref : Ref) (times : list R) :
  shape ref <> "fireworks"%string ->
  (PARTICLE_COUNT * 3 <= length (targetPositions ref))%nat ->
  forall positions,
    (PARTICLE_COUNT * 3 <= length positions)%nat ->
    exists positions',
      animateTicks ref times positions = Some positions' /\
      length positions' = length positions /\
      (forall i, (i < PARTICLE_COUNT)%nat ->
         exists t p p',
           Spec.pointAt (targetPositions ref) i = Some t /\
           Spec.pointAt positions i = Some p /\
           Spec.pointAt positions' i = Some p' /\
           snd p' = Spec.lerpTicks (length times) (snd p)
                      (snd t * (0.2 + gestureFactor ref * 0.8))).
Proof.
  intros Hs Htl. induction times as [| time rest IH]; intros positions Hpl.
  - exists positions. do 2 (split; [reflexivity |]).
    intros i Hi.
    destruct (pointAt_Some (targetPositions ref) i) as [t Ht]; [lia |].
    destruct (pointAt_Some positions i) as [p Hp]; [lia |].
    exists t, p, p. auto.
  - destruct (animate_spec ref time positions Htl Hpl)
      as (positions1 & Hrun & Hlen & Hpts).
    destruct (IH positions1) as (positions' & Hrun' & Hlen' & Hpts');
      [lia |].
    exists positions'. cbn [animateTicks]. rewrite Hrun.
    split; [exact Hrun' |]. split; [lia |].
    intros i Hi.
    destruct (Hpts i Hi) as (t & p & Ht & Hp & Hp1).
    destruct (Hpts' i Hi) as (t' & p1 & p' & Ht' & Hp1' & Hp' & Hz).
    exists t, p, p'. do 3 (split; [assumption |]).
    rewrite Ht in Ht'. injection Ht' as <-.
    rewrite Hp1 in Hp1'. injection Hp1' as <-.
    rewrite Hz. cbn [length Spec.lerpTicks]. f_equal.
    destruct t as [[tx ty] tz], p as [[x y] z].
    pose proof (particleTarget_depth ref time i tx ty tz Hs) as Hd.
    destruct (particleTarget ref time i (tx, ty, tz)) as [[a b] c].
    cbn [snd] in Hd. subst c. reflexivity.
Qed.

(** *** Ticks of [animate] toward a target that does not move *)

Lemma coord_lerpPoint (c : Axis) (p t : Point) :
  coord c (Spec.lerpPoint p t) = lerp (coord c p) (coord c t).
Proof. destruct p as [[x y] z], t as [[tx ty] tz], c; reflexivity. Qed.

(** One tick, one particle, one coordinate. *)
Lemma animate_coord (ref : Ref) (time : R) (positions : list R) (i : nat)
    (t p : Point) (c : Axis) :
  (PARTICLE_COUNT * 3 <= length (targetPositions ref))%nat ->
  (PARTICLE_COUNT * 3 <= length positions)%nat ->
  (i < PARTICLE_COUNT)%nat ->
  Spec.pointAt (targetPositions ref) i = Some t ->
  Spec.pointAt positions i = Some p ->
  exists positions1 p1,
    animate ref time positions = Some positions1 /\
    length positions1 = length positions /\
    Spec.pointAt positions1 i = Some p1 /\
    coord c p1 = lerp (coord c p) (coord c (particleTarget ref time i t)).
Proof.
  intros Htl Hpl Hi Ht Hp.
  destruct (animate_spec ref time positions Htl Hpl)
    as (positions1 & Hrun & Hlen & Hpts).
  destruct (Hpts i Hi) as (t' & p' & Ht' & Hp' & Hnew).
  rewrite Ht in Ht'. injection Ht' as <-.
  rewrite Hp in Hp'. injection Hp' as <-.
  exists positions1, (Spec.lerpPoint p (particleTarget ref time i t)).
  split; [exact Hrun |]. split; [exact Hlen |]. split; [exact Hnew |].
  apply coord_lerpPoint.
Qed.

(** Over ticks at which one coordinate of the target of particle [i] has
    the same value [T], that coordinate of the live point follows
    [Spec.lerpTicks]. *)
Lemma animateTicks_coord (ref : Ref) (i : nat) (t : Point) (c : Axis) (T : R)
    (times : list R) :
  (PARTICLE_COUNT * 3 <= length (targetPositions ref))%nat ->
  (i < PARTICLE_COUNT)%nat ->
  Spec.pointAt (targetPositions ref) i = Some t ->
  Forall (fun time => coord c (particleTarget ref time i t) = T) times ->
  forall positions p,
    (PARTICLE_COUNT * 3 <= length positions)%nat ->
    Spec.pointAt positions i = Some p ->
    exists positions' p',
      animateTicks ref times positions = Some positions' /\
      Spec.pointAt positions' i = Some p' /\
      coord c p' = Spec.lerpTicks (length times) (coord c p) T.
Proof.
  intros Htl Hi Ht Hfix.
  induction Hfix as [| time rest Htime _ IH]; intros positions p Hpl Hp.
  - exists positions, p. split; [reflexivity |]. split; [exact Hp | reflexivity].
  - destruct (animate_coord ref time positions i t p c Htl Hpl Hi Ht Hp)
      as (positions1 & p1 & Hrun & Hlen & Hp1 & Hc1).
    destruct (IH positions1 p1) as (positions' & p' & Hrun' & Hp' & Hc');
      [lia | exact Hp1 |].
    exists positions', p'. cbn [animateTicks]. rewrite Hrun.
    split; [exact Hrun' |]. split; [exact Hp' |].
    rewrite Hc', Hc1, Htime. reflexivity.
Qed.

(** C4: a tick of [animate] replaces every live coordinate by
    [live + 0.08 * (target - live)], whatever the target.  Consequently,
    over ticks at which the target of a coordinate keeps one value [T],
    the value [live n] of that coordinate after the first [n] ticks of
    [animateTicks] obeys the same rule from tick to tick, its error
    [|live n - T|] is the initial error times [0.92 ^ n], never grows from
    one tick to the next and, after 50 ticks, is at most 2% of the
    initial error. *)
Theorem position_smoothing_converges (ref : Ref) (times : list R)
    (positions : list R) (i : nat) (t p : Point) (c : Axis) (T : R) :
  (PARTICLE_COUNT * 3 <= length (targetPositions ref))%nat ->
  (PARTICLE_COUNT * 3 <= length positions)%nat ->
  (i < PARTICLE_COUNT)%nat ->
  Spec.pointAt (targetPositions ref) i = Some t ->
  Spec.pointAt positions i = Some p ->
  Forall (fun time => coord c (particleTarget ref time i t) = T) times ->
  (forall time : R,
     exists positions1 p1,
       animate ref time positions = Some positions1 /\
       Spec.pointAt positions1 i = Some p1 /\
       coord c p1
       = coord c p
         + 0.08 * (coord c (particleTarget ref time i t) - coord c p)) /\
  exists live : nat -> R,
    live 0%nat = coord c p /\
    (forall n, (n <= length times)%nat ->
       exists positions_n p_n,
         animateTicks ref (take n times) positions = Some positions_n /\
         Spec.pointAt positions_n i = Some p_n /\
         coord c p_n = live n) /\
    (forall n, (n < length times)%nat ->
       live (S n) = live n + 0.08 * (T - live n)) /\
    (forall n, (n <= length times)%nat ->
       Rabs (live n - T) = Rabs (live 0%nat - T) * 0.92 ^ n) /\
    (forall n, (n < length times)%nat ->
       Rabs (live (S n) - T) <= Rabs (live n - T)) /\
    ((50 <= length times)%nat ->
       Rabs (live 50%nat - T) <= 0.02 * Rabs (live 0%nat - T)).
Proof.
  intros Htl Hpl Hi Ht Hp Hfix. split.
  - intros time.
    destruct (animate_coord ref time positions i t p c Htl Hpl Hi Ht Hp)
      as (positions1 & p1 & Hrun & _ & Hp1 & Hc1).
    exists positions1, p1. split; [exact Hrun |]. split; [exact Hp1 |].
    rewrite Hc1. unfold lerp. ring.
  - exists (fun n => Spec.lerpTicks n (coord c p) T).
    destruct (lerp_fixed_target_convergence (coord c p) T 50)
      as (_ & _ & _ & _ & H50).
    split; [reflexivity |]. split; [| split; [| split; [| split]]].
    + intros n Hn.
      destruct (animateTicks_coord ref i t c T (take n times) Htl Hi Ht
                  (Forall_take _ n _ Hfix) positions p Hpl Hp)
        as (positions_n & p_n & Hrun & Hp_n & Hc_n).
      exists positions_n, p_n. split; [exact Hrun |]. split; [exact Hp_n |].
      rewrite Hc_n, length_take_le by lia. reflexivity.
    + intros n _. rewrite lerpTicks_succ. unfold lerp. ring.
    + intros n _.
      destruct (lerp_fixed_target_convergence (coord c p) T n)
        as (_ & _ & Herr & _).
      exact Herr.
    + intros n _.
      destruct (lerp_fixed_target_convergence (coord c p) T n)
        as (_ & _ & _ & Hmono & _).
      exact Hmono.
    + intros _. exact H50.
Qed.

Lemma position_smoothing_converges_witness :
  let ref := {| shape := "heart";
                targetPositions := replicate (PARTICLE_COUNT * 3) 2;
                gestureFactor := 0.5 |} in
  let times := [0; 0.016; 0.033] in
  exists live : nat -> R,
    live 0%nat = 0 /\
    (exists positions_3 p_3,
       animateTicks ref (take 3 times) (replicate (PARTICLE_COUNT * 3) 0)
       = Some positions_3 /\
       Spec.pointAt positions_3 7 = Some p_3 /\
       coord AxisZ p_3 = live 3%nat) /\
    Rabs (live 3%nat - 1.2) = Rabs (live 0%nat - 1.2) * 0.92 ^ 3.
Proof.
  cbv zeta.
  destruct (position_smoothing_converges
              {| shape := "heart";
                 targetPositions := replicate (PARTICLE_COUNT * 3) 2;
                 gestureFactor := 0.5 |}
              [0; 0.016; 0.033] (replicate (PARTICLE_COUNT * 3) 0) 7
              (2, 2, 2) (0, 0, 0) AxisZ 1.2)
    as (_ & live & H0 & Hrun & _ & Herr & _).
  - cbn [targetPositions]. rewrite length_replicate. lia.
  - rewrite length_replicate. lia.
  - unfold PARTICLE_COUNT. lia.
  - cbn [targetPositions]. unfold Spec.pointAt.
    rewrite !lookup_replicate_2 by (unfold PARTICLE_COUNT; lia). reflexivity.
  - unfold Spec.pointAt.
    rewrite !lookup_replicate_2 by (unfold PARTICLE_COUNT; lia). reflexivity.
  - repeat constructor; unfold particleTarget;
      cbn [shape gestureFactor String.eqb Ascii.eqb Bool.eqb coord]; lra.
  - exists live. split; [exact H0 |].
    split; [apply Hrun; cbn [length]; lia | apply Herr; cbn [length]; lia].
Defined.

(** ** States the component can reach *)

Lemma initialRef_aligned (random : nat -> R) : aligned (initialRef random).
Proof.
  unfold aligned, initialRef. cbn [targetPositions].
  apply generateShape_length.
Qed.

Lemma selectShape_aligned (random : nat -> R) (activeShape : string) (k : nat)
    (w : World) :
  aligned (stateRef (fst (selectShape random activeShape k w))).
Proof.
  unfold selectShape, aligned.
  pose proof (generateShape_length random activeShape PARTICLE_COUNT k) as H.
  destruct (generateShape random activeShape PARTICLE_COUNT k) as [target k'].
  exact H.
Qed.

Lemma onResults_aligned (now : Z) (results : Results) (w : World) :
  aligned (stateRef w) -> aligned (stateRef (fst (onResults now results w))).
Proof.
  unfold aligned, onResults. intros H.
  destruct (onResults_closure_frame (gestureValue initialUi) now results w)
    as [_ Ht].
  now rewrite Ht.
Qed.

Lemma perceive_aligned (frames : list (Z * Results)) :
  forall w, aligned (stateRef w) -> aligned (stateRef (perceive frames w)).
Proof.
  induction frames as [| [now results] rest IH]; intros w Hw; simpl.
  - exact Hw.
  - apply IH. now apply onResults_aligned.
Qed.

Lemma initialPositions_length (random : nat -> R) (k : nat) :
  length (initialPositions random k) = (PARTICLE_COUNT * 3)%nat.
Proof. unfold initialPositions. now rewrite length_map, length_seq. Qed.

(** Whatever the perception pipeline delivered so far, any number of ticks
    from the initial live buffer runs without an out-of-range read. *)
Lemma animateTicks_reachable (random : nat -> R) (k : nat)
    (frames : list (Z * Results)) (times : list R) :
  exists positions',
    animateTicks (stateRef (perceive frames (initialWorld random))) times
      (initialPositions random k) = Some positions' /\
    length positions' = (PARTICLE_COUNT * 3)%nat.
Proof.
  pose proof (perceive_aligned frames (initialWorld random)
                (initialRef_aligned random)) as Hal.
  set (ref := stateRef (perceive frames (initialWorld random))) in *.
  assert (Hgen : forall positions,
            length positions = (PARTICLE_COUNT * 3)%nat ->
            exists positions',
              animateTicks ref times positions = Some positions' /\
              length positions' = (PARTICLE_COUNT * 3)%nat).
  { induction times as [| time rest IH]; intros positions Hlen.
    - exists positions. split; [reflexivity | exact Hlen].
    - destruct (animate_spec ref time positions)
        as (positions1 & Hrun & Hlen1 & _);
        [unfold aligned in Hal; lia | lia |].
      destruct (IH positions1) as (positions' & Hrun' & Hlen'); [lia |].
      exists positions'. cbn [animateTicks]. rewrite Hrun.
      split; [exact Hrun' | exact Hlen']. }
  apply Hgen, initialPositions_length.
Qed.

(** * Further properties of the code *)

(** ** The shape generator: draws and locality *)

(** X1: the generator makes a fixed number of [Math.random()] calls per
    point -- four for a heart, two for a flower, three for fireworks, none
    for any other identifier -- so a cloud of [count] points advances the
    call counter by [count] times that number. *)
Theorem generateShape_draws (random : nat -> R) (type : string) (count k : nat) :
  snd (generateShape random "heart" count k) = (k + count * 4)%nat /\
  snd (generateShape random "flower" count k) = (k + count * 2)%nat /\
  snd (generateShape random "fireworks" count k) = (k + count * 3)%nat /\
  (String.eqb type "heart" = false -> String.eqb type "flower" = false ->
   String.eqb type "fireworks" = false ->
   snd (generateShape random type count k) = k).
Proof.
  unfold generateShape. rewrite !fillShape_counter.
  repeat split. intros Hh Hf Hw.
  unfold drawsPerPoint. rewrite Hh, Hf, Hw. lia.
Qed.

Lemma generateShape_draws_witness :
  snd (generateShape (fun _ => 0) "circle" 5 7) = 7%nat.
Proof.
  apply (generateShape_draws (fun _ => 0) "circle" 5 7); reflexivity.
Defined.

Lemma shapePoint_ext (random random' : nat -> R) (type : string) (k : nat) :
  (forall j, (k <= j < k + drawsPerPoint type)%nat -> random j = random' j) ->
  fst (shapePoint random type k) = fst (shapePoint random' type k).
Proof.
  unfold shapePoint, drawsPerPoint. intros H.
  destruct (String.eqb type "heart").
  { rewrite (H k), (H (k + 2)%nat), (H (k + 3)%nat) by lia. reflexivity. }
  destruct (String.eqb type "flower").
  { rewrite (H k), (H (k + 1)%nat) by lia. reflexivity. }
  destruct (String.eqb type "fireworks").
  { rewrite (H k), (H (k + 1)%nat), (H (k + 2)%nat) by lia. reflexivity. }
  reflexivity.
Qed.

(** X2: no coupling between particles: point [i] of a generated cloud is a
    function of its own draws only, those numbered from
    [k + i * drawsPerPoint type] up to (excluding)
    [k + (i + 1) * drawsPerPoint type].  Two random sequences that agree
    there give the same point [i], whatever they do elsewhere. *)
Theorem generateShape_local (random random' : nat -> R) (type : string)
    (count k i : nat) :
  (i < count)%nat ->
  (forall j, (k + i * drawsPerPoint type <= j
              < k + (i + 1) * drawsPerPoint type)%nat ->
             random j = random' j) ->
  Spec.pointAt (fst (generateShape random type count k)) i
  = Spec.pointAt (fst (generateShape random' type count k)) i.
Proof.
  intros Hi Hagree. rewrite !generateShape_pointAt by assumption.
  f_equal. apply shapePoint_ext. intros j Hj. apply Hagree. lia.
Qed.

Lemma generateShape_local_witness :
  Spec.pointAt
    (fst (generateShape (fun j => if (j <? 3)%nat then / 2 else 0)
            "fireworks" 2 0)) 0
  = Spec.pointAt (fst (generateShape (fun _ => / 2) "fireworks" 2 0)) 0.
Proof.
  apply generateShape_local; [lia |].
  intros j Hj. change (drawsPerPoint "fireworks") with 3%nat in Hj.
  destruct (Nat.ltb_spec j 3); [reflexivity | lia].
Defined.

(** X3: the heart branch draws a value [u] (line 29) that it never uses: a
    heart cloud does not depend on the second of the four draws of any of
    its points. *)
Theorem heart_ignores_second_draw (random random' : nat -> R)
    (count k i : nat) :
  (i < count)%nat ->
  (forall j, (j mod 4 <> 1)%nat -> random (k + j)%nat = random' (k + j)%nat) ->
  Spec.pointAt (fst (generateShape random "heart" count k)) i
  = Spec.pointAt (fst (generateShape random' "heart" count k)) i.
Proof.
  intros Hi Hagree. rewrite !generateShape_pointAt by assumption.
  change (drawsPerPoint "heart") with 4%nat. f_equal.
  unfold shapePoint. cbn [String.eqb Ascii.eqb Bool.eqb fst].
  assert (H0 : random (k + i * 4)%nat = random' (k + i * 4)%nat).
  { replace (k + i * 4)%nat with (k + (0 + i * 4))%nat by lia.
    apply Hagree. rewrite Nat.Div0.mod_add. discriminate. }
  assert (H2 : random (k + i * 4 + 2)%nat = random' (k + i * 4 + 2)%nat).
  { replace (k + i * 4 + 2)%nat with (k + (2 + i * 4))%nat by lia.
    apply Hagree. rewrite Nat.Div0.mod_add. discriminate. }
  assert (H3 : random (k + i * 4 + 3)%nat = random' (k + i * 4 + 3)%nat).
  { replace (k + i * 4 + 3)%nat with (k + (3 + i * 4))%nat by lia.
    apply Hagree. rewrite Nat.Div0.mod_add. discriminate. }
  rewrite H0, H2, H3. reflexivity.
Qed.

Lemma heart_ignores_second_draw_witness :
  Spec.pointAt
    (fst (generateShape (fun j => if (j mod 4 =? 1)%nat then 0 else / 2)
            "heart" 3 0)) 2
  = Spec.pointAt (fst (generateShape (fun _ => / 2) "heart" 3 0)) 2.
Proof.
  apply heart_ignores_second_draw; [lia |].
  intros j Hj. cbn [Nat.add].
  destruct (Nat.eqb_spec (j mod 4) 1); [contradiction | reflexivity].
Defined.

(** ** The shape generator: where the points lie *)

Lemma heart_point_box (random : nat -> R) (k : nat) :
  (forall j, 0 <= random j < 1) ->
  let '(x, y, z) := fst (shapePoint random "heart" k) in
  Rabs x <= 4 /\ Rabs y <= 21 / 4 /\ Rabs z <= 5 / 2.
Proof.
  intros Hr. unfold shapePoint. cbn [String.eqb Ascii.eqb Bool.eqb fst].
  set (t := random k * PI * 2).
  pose proof (Rabs_unit _ (Hr (k + 3)%nat)) as Hd.
  pose proof (Rabs_sin_le t) as Hs.
  assert (Hs3 : Rabs (sin t ^ 3) <= 1).
  { rewrite <- RPow_abs. pose proof (Rabs_pos (sin t)).
    assert (Rabs (sin t) ^ 3 <= 1 ^ 3) by (apply pow_incr; lra). lra. }
  repeat split.
  - replace 4 with (4 * 1) by lra. apply Rabs_mult_le; [| exact Hd].
    replace (16 * sin t ^ 3 * 0.25) with (4 * sin t ^ 3) by lra.
    rewrite Rabs_mult, (Rabs_pos_eq 4) by lra. lra.
  - replace (21 / 4) with (21 / 4 * 1) by lra.
    apply Rabs_mult_le; [| exact Hd]. apply Rabs_le.
    pose proof (COS_bound t). pose proof (COS_bound (2 * t)).
    pose proof (COS_bound (3 * t)). pose proof (COS_bound (4 * t)). lra.
  - replace (5 / 2) with (5 / 2 * 1) by lra.
    apply Rabs_mult_le; [| exact Hd].
    replace (5 / 2) with (5 / 2 * 1) by lra.
    apply Rabs_mult_le; [| exact Hs].
    apply Rabs_le. pose proof (Hr (k + 2)%nat). lra.
Qed.

(** X4: every point of a heart cloud lies in the box
    [[-4,4] x [-21/4,21/4] x [-5/2,5/2]]. *)
Theorem heart_in_box (random : nat -> R) (count k i : nat) :
  (forall j, 0 <= random j < 1) ->
  (i < count)%nat ->
  exists x y z,
    Spec.pointAt (fst (generateShape random "heart" count k)) i
      = Some (x, y, z) /\
    Rabs x <= 4 /\ Rabs y <= 21 / 4 /\ Rabs z <= 5 / 2.
Proof.
  intros Hr Hi. rewrite generateShape_pointAt by assumption.
  pose proof (heart_point_box random (k + i * drawsPerPoint "heart") Hr) as H.
  destruct (fst (shapePoint random "heart" (k + i * drawsPerPoint "heart")))
    as [[x y] z].
  exists x, y, z. split; [reflexivity | exact H].
Qed.

Lemma heart_in_box_witness :
  exists x y z,
    Spec.pointAt (fst (generateShape (fun _ => / 2) "heart" 4 0)) 3
      = Some (x, y, z) /\
    Rabs x <= 4 /\ Rabs y <= 21 / 4 /\ Rabs z <= 5 / 2.
Proof.
  apply (heart_in_box (fun _ => / 2)); [intros j; lra | lia].
Defined.

Lemma flower_point_ellipsoid (random : nat -> R) (k : nat) :
  let '(x, y, z) := fst (shapePoint random "flower" k) in
  let r := 3 * cos (4 * (random k * PI * 2)) + 1 in
  x ^ 2 + (2 * y) ^ 2 + z ^ 2 = r ^ 2 /\ -2 <= r <= 4.
Proof.
  unfold shapePoint. cbn [String.eqb Ascii.eqb Bool.eqb fst]. cbv zeta.
  set (theta := random k * PI * 2). set (phi := random (k + 1)%nat * PI).
  set (r := 3 * cos (4 * theta) + 1).
  pose proof (sin_cos_pow2 theta) as Ht. pose proof (sin_cos_pow2 phi) as Hp.
  split.
  - replace ((r * sin phi * cos theta) ^ 2 + (2 * (r * cos phi * 0.5)) ^ 2
             + (r * sin phi * sin theta) ^ 2)
      with (r ^ 2 * (sin phi ^ 2 * (sin theta ^ 2 + cos theta ^ 2)
                     + cos phi ^ 2)) by lra.
    rewrite Ht, Rmult_1_r, Hp. ring.
  - pose proof (COS_bound (4 * theta)). subst r. lra.
Qed.

(** X5: the flattening of line 59 halves [y] only: doubling [y] back, a
    flower point lies at distance [|3 cos (4 theta) + 1|] from the origin,
    a radius between -2 and 4; so every flower point is inside the
    ellipsoid [x^2 + (2y)^2 + z^2 <= 16], with [|y| <= 2].  This holds for
    any values of the draws. *)
Theorem flower_in_ellipsoid (random : nat -> R) (count k i : nat) :
  (i < count)%nat ->
  exists x y z,
    Spec.pointAt (fst (generateShape random "flower" count k)) i
      = Some (x, y, z) /\
    x ^ 2 + (2 * y) ^ 2 + z ^ 2
      = (3 * cos (4 * (random (k + i * 2)%nat * PI * 2)) + 1) ^ 2 /\
    x ^ 2 + (2 * y) ^ 2 + z ^ 2 <= 16 /\
    Rabs y <= 2.
Proof.
  intros Hi. rewrite generateShape_pointAt by assumption.
  change (drawsPerPoint "flower") with 2%nat.
  pose proof (flower_point_ellipsoid random (k + i * 2)) as H.
  destruct (fst (shapePoint random "flower" (k + i * 2))) as [[x y] z].
  cbv zeta in H. destruct H as [Heq Hr].
  exists x, y, z. split; [reflexivity |]. split; [exact Heq |].
  set (r := 3 * cos (4 * (random (k + i * 2)%nat * PI * 2)) + 1) in *.
  assert (Hr2 : r ^ 2 <= 16) by nra.
  split; [lra |].
  apply Rabs_le. nra.
Qed.

Lemma flower_in_ellipsoid_witness :
  exists x y z,
    Spec.pointAt (fst (generateShape (fun _ => 0) "flower" 2 0)) 1
      = Some (x, y, z) /\
    x ^ 2 + (2 * y) ^ 2 + z ^ 2
      = (3 * cos (4 * (0 * PI * 2)) + 1) ^ 2 /\
    x ^ 2 + (2 * y) ^ 2 + z ^ 2 <= 16 /\
    Rabs y <= 2.
Proof.
  apply (flower_in_ellipsoid (fun _ => 0) 2 0 1). lia.
Defined.

(** X6: the polar angle of a fireworks point is [acos (2u - 1)], so its
    [z] is the radius times [2u - 1], a value linear in the third draw:
    this is what spreads the points evenly in height instead of bunching
    them at the poles. *)
Theorem fireworks_depth (random : nat -> R) (count k i : nat) :
  (forall j, 0 <= random j < 1) ->
  (i < count)%nat ->
  exists x y z,
    Spec.pointAt (fst (generateShape random "fireworks" count k)) i
      = Some (x, y, z) /\
    z = 4 * Math.cbrt (random (k + i * 3)%nat)
        * (2 * random (k + i * 3 + 2)%nat - 1).
Proof.
  intros Hr Hi. rewrite generateShape_pointAt by assumption.
  change (drawsPerPoint "fireworks") with 3%nat.
  unfold shapePoint. cbn [String.eqb Ascii.eqb Bool.eqb fst].
  do 3 eexists. split; [reflexivity |].
  rewrite cos_acos; [reflexivity |].
  pose proof (Hr (k + i * 3 + 2)%nat). lra.
Qed.

Lemma fireworks_depth_witness :
  exists x y z,
    Spec.pointAt (fst (generateShape (fun _ => / 2) "fireworks" 2 0)) 1
      = Some (x, y, z) /\
    z = 4 * Math.cbrt (/ 2) * (2 * / 2 - 1).
Proof.
  apply (fireworks_depth (fun _ => / 2)); [intros j; lra | lia].
Defined.

(** ** The gesture callback: the raw factor *)

(** X7: the raw factor saturates and is monotone: it is 0 for every
    distance up to 0.03, 1 for every distance from 0.18 on, and never
    decreases when the distance grows. *)
Theorem pinchFactor_saturates (d d' : R) :
  (d <= 0.03 -> pinchFactor d = 0) /\
  (0.18 <= d -> pinchFactor d = 1) /\
  (d <= d' -> pinchFactor d <= pinchFactor d').
Proof.
  unfold pinchFactor. cbv zeta. rewrite !clamp_cases. unfold Spec.clamp01.
  repeat split; intros H;
    repeat match goal with
           | |- context [Rle_dec ?a ?b] => destruct (Rle_dec a b)
           end; lra.
Qed.

Lemma pinchFactor_saturates_witness :
  pinchFactor (-1) = 0 /\ pinchFactor 5 = 1 /\ pinchFactor (-1) <= pinchFactor 5.
Proof.
  destruct (pinchFactor_saturates (-1) 5) as (H0 & _ & Hm).
  destruct (pinchFactor_saturates 5 5) as (_ & H1 & _).
  split; [apply H0; lra |]. split; [apply H1; lra | apply Hm; lra].
Defined.

(** X8: the pinch distance is a distance between the two tips: it does not
    change when thumb and index are exchanged or when both are moved by
    the same vector, and it is zero for coinciding tips, where the raw
    factor is 0. *)
Theorem pinchDistance_relative (thumb index v : Landmark.t) :
  pinchDistance thumb index = pinchDistance index thumb /\
  pinchDistance (translate v thumb) (translate v index)
    = pinchDistance thumb index /\
  pinchDistance thumb thumb = 0 /\
  pinchFactor (pinchDistance thumb thumb) = 0.
Proof.
  assert (H0 : pinchDistance thumb thumb = 0).
  { unfold pinchDistance.
    replace ((Landmark.x thumb - Landmark.x thumb) ^ 2 +
             (Landmark.y thumb - Landmark.y thumb) ^ 2 +
             (Landmark.z thumb - Landmark.z thumb) ^ 2) with 0 by ring.
    apply sqrt_0. }
  repeat split.
  - unfold pinchDistance. f_equal. ring.
  - unfold pinchDistance, translate.
    cbn [Landmark.x Landmark.y Landmark.z]. f_equal. ring.
  - exact H0.
  - rewrite H0. apply pinchFactor_saturates with (d' := 0). lra.
Qed.

(** ** The gesture callback: what it reads and what it writes *)

(** X9: of a frame with a hand, the callback reads nothing but landmarks 4
    and 8 of the first hand: two frames that agree there -- whatever their
    other landmarks, their other hands and the clock -- have the same
    effect and the same completion. *)
Theorem onResults_reads_tips_only (now now' : Z) (results results' : Results)
    (landmarks landmarks' : Landmarks) (rest rest' : list Landmarks)
    (w : World) :
  multiHandLandmarks results = Some (landmarks :: rest) ->
  multiHandLandmarks results' = Some (landmarks' :: rest') ->
  landmarkAt landmarks 4 = landmarkAt landmarks' 4 ->
  landmarkAt landmarks 8 = landmarkAt landmarks' 8 ->
  onResults now results w = onResults now' results' w.
Proof.
  intros H H' H4 H8. unfold onResults, onResults_closure.
  rewrite H, H', H4, H8. reflexivity.
Qed.

Lemma onResults_reads_tips_only_witness :
  onResults 0 (pinchFrame 0.1) (initialWorld (fun _ => 0))
  = onResults 99
      {| multiHandLandmarks :=
           Some [<[0%nat := None]> (pinchHand 0.1); pinchHand 0.2] |}
      (initialWorld (fun _ => 0)).
Proof.
  eapply onResults_reads_tips_only; reflexivity.
Defined.

Lemma perceive_app (frames frames' : list (Z * Results)) :
  forall w, perceive (frames ++ frames') w = perceive frames' (perceive frames w).
Proof.
  induction frames as [| [now results] rest IH]; intros w; simpl.
  - reflexivity.
  - apply IH.
Qed.

(** X10: [handStatus] is a function of the last frame alone: after any
    run of the pipeline it is [detected] exactly when the last frame
    reported a hand -- also when that hand's landmarks were incomplete and
    the callback threw -- whatever the earlier frames and the state
    were. *)
Theorem handStatus_follows_last_frame (frames : list (Z * Results))
    (now : Z) (results : Results) (w : World) :
  let w' := perceive (frames ++ [(now, results)]) w in
  handStatus (ui w') = (if handReported results then detected else searching) /\
  statusLabel (ui w')
  = (if handReported results then "HAND DETECTED" else "SEARCHING HAND...")%string.
Proof.
  cbv zeta. rewrite perceive_app. cbn [perceive].
  unfold statusLabel. rewrite onResults_handStatus.
  destruct (handReported results); split; reflexivity.
Qed.

(** ** The gesture callback: the surfaced value *)

(** X11: a frame with a hand surfaces its raw factor exactly when that
    factor exceeds 0.05, whatever value was surfaced before; otherwise the
    surfaced value is left as it was. *)
Theorem surfaced_value_rule (now : Z) (results : Results) (w : World)
    (thumb index : Landmark.t) :
  showsTips thumb index results ->
  let factor := pinchFactor (pinchDistance thumb index) in
  let surfaced := gestureValue (ui (fst (onResults now results w))) in
  (0.05 < factor -> surfaced = factor) /\
  (factor <= 0.05 -> surfaced = gestureValue (ui w)).
Proof.
  intros (landmarks & rest & Hres & H4 & H8). cbv zeta.
  rewrite (onResults_surfaced now results w landmarks rest thumb index)
    by assumption.
  cbv zeta. destruct (Rgt_dec _ _) as [Hgt | Hle]; split; intros H;
    try reflexivity; lra.
Qed.

Lemma pinchFrame_showsTips (d : R) :
  showsTips (Landmark.mk d 0 0) (Landmark.mk 0 0 0) (pinchFrame d).
Proof. exists (pinchHand d), []. repeat split. Qed.

Lemma surfaced_value_rule_witness :
  gestureValue
    (ui (fst (onResults 0 (pinchFrame 0.18)
                (setGestureValue 0.9 (initialWorld (fun _ => 0))))))
  = pinchFactor (pinchDistance (Landmark.mk 0.18 0 0) (Landmark.mk 0 0 0)) /\
  gestureValue
    (ui (fst (onResults 0 (pinchFrame 0.03)
                (setGestureValue 0.9 (initialWorld (fun _ => 0))))))
  = 0.9.
Proof.
  split.
  - destruct (surfaced_value_rule 0 (pinchFrame 0.18)
                (setGestureValue 0.9 (initialWorld (fun _ => 0))) _ _
                (pinchFrame_showsTips 0.18)) as [Hup _].
    apply Hup. rewrite pinchDistance_axis, pinchFactor_linear by lra. lra.
  - destruct (surfaced_value_rule 0 (pinchFrame 0.03)
                (setGestureValue 0.9 (initialWorld (fun _ => 0))) _ _
                (pinchFrame_showsTips 0.03)) as [_ Hkeep].
    apply Hkeep. rewrite pinchDistance_axis, pinchFactor_linear by lra. lra.
Defined.

Lemma onResults_gestureValue_cases (now : Z) (results : Results) (w : World) :
  let surfaced := gestureValue (ui (fst (onResults now results w))) in
  surfaced = gestureValue (ui w) \/ 0.05 < surfaced <= 1.
Proof.
  cbv zeta. unfold onResults, onResults_closure.
  destruct (multiHandLandmarks results) as [[| landmarks rest] |];
    try (left; reflexivity).
  destruct (landmarkAt landmarks 4) as [thumb |],
           (landmarkAt landmarks 8) as [index |]; try (left; reflexivity).
  cbv zeta. cbn [gestureValue initialUi].
  pose proof (pinchFactor_range (pinchDistance thumb index)) as Hf.
  destruct (Rgt_dec _ _) as [Hgt | Hle]; [right | left; reflexivity].
  cbn [fst setGestureValue ui gestureValue].
  unfold Math.abs in Hgt. rewrite Rminus_0_r, Rabs_pos_eq in Hgt; lra.
Qed.

Lemma perceive_gestureValue (frames : list (Z * Results)) :
  forall w,
    gestureValue (ui w) = 0 \/ 0.05 < gestureValue (ui w) <= 1 ->
    gestureValue (ui (perceive frames w)) = 0 \/
    0.05 < gestureValue (ui (perceive frames w)) <= 1.
Proof.
  induction frames as [| [now results] rest IH]; intros w Hw; simpl.
  - exact Hw.
  - apply IH.
    destruct (onResults_gestureValue_cases now results w) as [-> | H];
      [exact Hw | right; exact H].
Qed.

(** X12: after any run of the pipeline from the initial state the surfaced
    gesture value is either still 0 or a value above 0.05 and at most 1: a
    factor of 0.05 or less is never surfaced.  So the debug ring, when it
    is rendered, is 100 pixels wide or between 110 and 300. *)
Theorem surfaced_value_range (random : nat -> R) (frames : list (Z * Results)) :
  let u := ui (perceive frames (initialWorld random)) in
  (gestureValue u = 0 \/ 0.05 < gestureValue u <= 1) /\
  match debugRing u with
  | Some size => size = 100 \/ 110 < size <= 300
  | None => handStatus u = searching
  end.
Proof.
  cbv zeta.
  pose proof (perceive_gestureValue frames (initialWorld random)
                (or_introl eq_refl)) as H.
  split; [exact H |]. unfold debugRing.
  destruct (handStatus (ui (perceive frames (initialWorld random))));
    [| reflexivity].
  destruct H as [-> | H]; [left | right]; lra.
Qed.

(** ** The gesture callback: smoothing of a steady hand *)

Lemma onResults_showsTips (now : Z) (results : Results) (w : World)
    (thumb index : Landmark.t) :
  showsTips thumb index results ->
  let f := pinchFactor (pinchDistance thumb index) in
  gestureFactor (stateRef (fst (onResults now results w))) - f
  = (gestureFactor (stateRef w) - f) * 0.8.
Proof.
  intros (landmarks & rest & Hres & H4 & H8). cbv zeta.
  unfold onResults, onResults_closure. rewrite Hres, H4, H8. cbv zeta.
  destruct (Rgt_dec _ _); simpl; lra.
Qed.

(** X13: while the hand holds still -- every frame shows the same thumb
    tip and index tip -- [gestureFactor] approaches the raw factor
    geometrically: after [n] frames the gap is the initial gap times
    [0.8 ^ n], so it never widens and never changes sign. *)
Theorem gestureFactor_steady_hand (thumb index : Landmark.t)
    (frames : list (Z * Results)) (w : World) :
  Forall (fun frame => showsTips thumb index (snd frame)) frames ->
  let f := pinchFactor (pinchDistance thumb index) in
  gestureFactor (stateRef (perceive frames w)) - f
  = (gestureFactor (stateRef w) - f) * 0.8 ^ length frames /\
  Rabs (gestureFactor (stateRef (perceive frames w)) - f)
  <= Rabs (gestureFactor (stateRef w) - f).
Proof.
  intros Hall. cbv zeta.
  set (f := pinchFactor (pinchDistance thumb index)).
  assert (Heq : gestureFactor (stateRef (perceive frames w)) - f
                = (gestureFactor (stateRef w) - f) * 0.8 ^ length frames).
  { revert w. induction Hall as [| [now results] rest Hhd _ IH]; intros w.
    - simpl. lra.
    - cbn [perceive length]. rewrite IH.
      pose proof (onResults_showsTips now results w thumb index Hhd) as H.
      cbv zeta in H. fold f in H. rewrite H. simpl pow. ring. }
  split; [exact Heq |].
  rewrite Heq, Rabs_mult.
  assert (Hp : 0 <= 0.8 ^ length frames <= 1).
  { split; [apply pow_le; lra |].
    rewrite <- (pow1 (length frames)). apply pow_incr. lra. }
  rewrite (Rabs_pos_eq (0.8 ^ length frames)) by lra.
  pose proof (Rabs_pos (gestureFactor (stateRef w) - f)). nra.
Qed.

Lemma gestureFactor_steady_hand_witness :
  let frames := [(0%Z, pinchFrame 0.105); (33%Z, pinchFrame 0.105)] in
  let f := pinchFactor (pinchDistance (Landmark.mk 0.105 0 0)
                          (Landmark.mk 0 0 0)) in
  gestureFactor (stateRef (perceive frames (initialWorld (fun _ => 0)))) - f
  = (gestureFactor (stateRef (initialWorld (fun _ => 0))) - f) * 0.8 ^ 2.
Proof.
  cbv zeta.
  apply (gestureFactor_steady_hand (Landmark.mk 0.105 0 0) (Landmark.mk 0 0 0)
           [(0%Z, pinchFrame 0.105); (33%Z, pinchFrame 0.105)]).
  repeat constructor; apply pinchFrame_showsTips.
Defined.

(** ** The target of a particle *)

Lemma Rabs_bounds (x a : R) : Rabs x <= a -> - a <= x <= a.
Proof.
  intros H. pose proof (Rle_abs x). pose proof (Rle_abs (- x)) as H2.
  rewrite Rabs_Ropp in H2. lra.
Qed.

Lemma sq_le_abs (a M : R) : a ^ 2 <= M ^ 2 -> 0 <= M -> Rabs a <= M.
Proof. intros Ha HM. apply Rabs_le. split; nra. Qed.

Lemma rotation_bound (c s u v M : R) :
  s ^ 2 + c ^ 2 = 1 -> u ^ 2 + v ^ 2 <= M ^ 2 -> 0 <= M ->
  Rabs (u * c - v * s) <= M /\ Rabs (u * s + v * c) <= M.
Proof.
  intros Hcs Huv HM.
  assert (Hrot : (u * c - v * s) ^ 2 + (u * s + v * c) ^ 2 = u ^ 2 + v ^ 2).
  { replace ((u * c - v * s) ^ 2 + (u * s + v * c) ^ 2)
      with ((s ^ 2 + c ^ 2) * (u ^ 2 + v ^ 2)) by ring.
    rewrite Hcs. ring. }
  pose proof (pow2_ge_0 (u * c - v * s)). pose proof (pow2_ge_0 (u * s + v * c)).
  split; apply sq_le_abs; lra.
Qed.

(** X14: apart from the jitter, the kinematics keep directions and scale
    distances: taking the jitter off a target leaves a point whose
    distance from the origin is the distance of the generated point times
    the shape's scalar -- [0.5 + 2.5 g] for fireworks, whose rotation
    changes no distance, [0.2 + 0.8 g] otherwise. *)
Theorem particleTarget_radius (ref : Ref) (time : R) (i : nat) (x y z : R) :
  let '(X, Y, Z) := particleTarget ref time i (x, y, z) in
  let jx := sin (time * 2 + INR i) * 0.05 in
  let jy := cos (time * 1.5 + INR i) * 0.05 in
  let scalar :=
    if String.eqb (shape ref) "fireworks"
    then 0.5 + gestureFactor ref * 2.5
    else 0.2 + gestureFactor ref * 0.8 in
  (X - jx) ^ 2 + (Y - jy) ^ 2 + Z ^ 2
  = scalar ^ 2 * (x ^ 2 + y ^ 2 + z ^ 2).
Proof.
  unfold particleTarget.
  destruct (String.eqb (shape ref) "fireworks"); cbv zeta.
  - set (e := 0.5 + gestureFactor ref * 2.5).
    pose proof (sin_cos_pow2 (time * 0.2)) as H.
    set (c := cos (time * 0.2)) in *. set (s := sin (time * 0.2)) in *.
    set (jx := sin (time * 2 + INR i) * 0.05).
    set (jy := cos (time * 1.5 + INR i) * 0.05).
    replace ((x * e * c - z * e * s + jx - jx) ^ 2 + (y * e + jy - jy) ^ 2
             + (x * e * s + z * e * c) ^ 2)
      with (e ^ 2 * ((s ^ 2 + c ^ 2) * (x ^ 2 + z ^ 2) + y ^ 2)) by ring.
    rewrite H. ring.
  - ring.
Qed.

Lemma particleTarget_bounded (ref : Ref) (time : R) (i : nat) (x y z : R) :
  0 <= gestureFactor ref <= 1 ->
  (if String.eqb (shape ref) "fireworks"
   then x ^ 2 + y ^ 2 + z ^ 2 <= 16
   else Rabs x <= 21 / 4 /\ Rabs y <= 21 / 4 /\ Rabs z <= 21 / 4) ->
  let '(X, Y, Z) := particleTarget ref time i (x, y, z) in
  Rabs X <= liveBound /\ Rabs Y <= liveBound /\ Rabs Z <= liveBound.
Proof.
  intros Hg Hp. unfold particleTarget, liveBound.
  pose proof (SIN_bound (time * 2 + INR i)) as Hjx.
  pose proof (COS_bound (time * 1.5 + INR i)) as Hjy.
  set (jx := sin (time * 2 + INR i)) in *.
  set (jy := cos (time * 1.5 + INR i)) in *.
  destruct (String.eqb (shape ref) "fireworks"); cbv zeta.
  - set (e := 0.5 + gestureFactor ref * 2.5).
    assert (He : 0.5 <= e <= 3) by (subst e; lra).
    pose proof (sin_cos_pow2 (time * 0.2)) as Hcs.
    set (c := cos (time * 0.2)) in *. set (s := sin (time * 0.2)) in *.
    assert (He2 : e ^ 2 <= 9) by nra.
    assert (Hxz : x ^ 2 + z ^ 2 <= 16) by nra.
    assert (Hy2 : y ^ 2 <= 16) by nra.
    assert (Huv : (x * e) ^ 2 + (z * e) ^ 2 <= 12 ^ 2).
    { replace ((x * e) ^ 2 + (z * e) ^ 2) with ((x ^ 2 + z ^ 2) * e ^ 2) by ring.
      replace (12 ^ 2) with (16 * 9) by lra.
      apply Rmult_le_compat; nra. }
    destruct (rotation_bound c s (x * e) (z * e) 12 Hcs Huv) as [HX HZ];
      [lra |].
    assert (HY : Rabs (y * e) <= 12).
    { apply Rabs_le. split; nra. }
    apply Rabs_bounds in HX. apply Rabs_bounds in HZ. apply Rabs_bounds in HY.
    repeat split; apply Rabs_le; lra.
  - set (b := 0.2 + gestureFactor ref * 0.8).
    assert (Hb : 0.2 <= b <= 1) by (subst b; lra).
    destruct Hp as (Hx & Hy & Hz).
    apply Rabs_bounds in Hx. apply Rabs_bounds in Hy. apply Rabs_bounds in Hz.
    repeat split; apply Rabs_le; split; nra.
Qed.

(** ** The component as a whole *)

Lemma generatedFor_aligned (random : nat -> R) (ref : Ref) :
  generatedFor random ref -> aligned ref.
Proof.
  intros [k Hk]. unfold aligned. rewrite Hk. apply generateShape_length.
Qed.

Lemma step_sized (random : nat -> R) (e : Event) (s : System) :
  sized s -> exists s', step random e s = Some s' /\ sized s'.
Proof.
  intros [Hal Hlen]. destruct e as [time | now results | activeShape k].
  - destruct (animate_spec (stateRef (world s)) time (live s))
      as (positions' & Hrun & Hlen' & _);
      [unfold aligned in Hal; lia | lia |].
    exists {| world := world s; live := positions' |}.
    cbn [step]. rewrite Hrun. split; [reflexivity |].
    split; [exact Hal | cbn [live]; lia].
  - eexists. split; [reflexivity |].
    split; [now apply onResults_aligned | exact Hlen].
  - eexists. split; [reflexivity |].
    split; [apply selectShape_aligned | exact Hlen].
Qed.

Lemma run_sized (random : nat -> R) (events : list Event) :
  forall s, sized s -> exists s', run random events s = Some s' /\ sized s'.
Proof.
  induction events as [| e rest IH]; intros s Hs.
  - exists s. split; [reflexivity | exact Hs].
  - destruct (step_sized random e s Hs) as (s1 & Hstep & Hs1).
    destruct (IH s1 Hs1) as (s' & Hrun & Hs').
    exists s'. cbn [run]. rewrite Hstep. split; [exact Hrun | exact Hs'].
Qed.

Lemma initialSystem_sized (random : nat -> R) (k : nat) :
  sized (initialSystem random k).
Proof.
  split; [apply initialRef_aligned | apply initialPositions_length].
Qed.

(** X15: the tick never reads past the end of a buffer: from the mounted
    component, under any interleaving of display refreshes, perception
    frames (also ones that make the callback throw) and shape selections
    (also of an identifier the generator does not know), every tick
    finds a target cloud and a live buffer of [PARTICLE_COUNT] points
    each. *)
Theorem run_never_out_of_range (random : nat -> R) (k : nat)
    (events : list Event) :
  exists s,
    run random events (initialSystem random k) = Some s /\
    length (targetPositions (stateRef (world s))) = (PARTICLE_COUNT * 3)%nat /\
    length (live s) = (PARTICLE_COUNT * 3)%nat.
Proof.
  destruct (run_sized random events (initialSystem random k)
              (initialSystem_sized random k)) as (s & Hrun & Hal & Hlen).
  exists s. split; [exact Hrun |]. split; [exact Hal | exact Hlen].
Qed.

Lemma lerp_bounded (p t B : R) :
  Rabs p <= B -> Rabs t <= B -> Rabs (lerp p t) <= B.
Proof.
  intros Hp Ht. apply Rabs_bounds in Hp. apply Rabs_bounds in Ht.
  unfold lerp. apply Rabs_le. lra.
Qed.

Lemma index_by_three (j : nat) :
  exists i, (j = i * 3 \/ j = i * 3 + 1 \/ j = i * 3 + 2)%nat.
Proof.
  exists (j / 3)%nat. pose proof (Nat.div_mod_eq j 3).
  pose proof (Nat.mod_upper_bound j 3). lia.
Qed.

Section Bounds.

Variable random : nat -> R.
Hypothesis random_range : forall j, 0 <= random j < 1.

Lemma generatedFor_target (ref : Ref) (i : nat) (x y z : R) :
  generatedFor random ref ->
  (i < PARTICLE_COUNT)%nat ->
  Spec.pointAt (targetPositions ref) i = Some (x, y, z) ->
  if String.eqb (shape ref) "fireworks"
  then x ^ 2 + y ^ 2 + z ^ 2 <= 16
  else Rabs x <= 21 / 4 /\ Rabs y <= 21 / 4 /\ Rabs z <= 21 / 4.
Proof.
  intros [k Hk] Hi Hp. rewrite Hk in Hp.
  rewrite generateShape_pointAt in Hp by assumption.
  injection Hp as Hp.
  destruct (String.eqb (shape ref) "fireworks") eqn:Hs.
  - apply String.eqb_eq in Hs. rewrite Hs in Hp.
    pose proof (fireworks_norm random random_range
                  (k + i * drawsPerPoint "fireworks")) as Hn.
    rewrite Hp in Hn. unfold Spec.norm in Hn.
    pose proof (cbrt_unit _ (random_range (k + i * drawsPerPoint "fireworks")))
      as Hc.
    assert (Hpos : 0 <= x ^ 2 + y ^ 2 + z ^ 2) by nra.
    rewrite <- (sqrt_sqrt _ Hpos), Hn. nra.
  - pose proof (shapePoint_bounded random random_range (shape ref)
                  (k + i * drawsPerPoint (shape ref))) as Hb.
    rewrite Hp in Hb. exact Hb.
Qed.

Lemma initialPositions_bounded (k : nat) :
  Forall (fun c => -5 <= c < 5) (initialPositions random k).
Proof.
  unfold initialPositions. apply Forall_map, Forall_forall.
  intros j _. cbn. pose proof (random_range (k + j)). lra.
Qed.

(** A tick keeps the live coordinates within [liveBound] when the target
    cloud was generated for the current shape. *)
Lemma animate_bounded (ref : Ref) (time : R) (positions positions' : list R) :
  generatedFor random ref ->
  0 <= gestureFactor ref <= 1 ->
  length positions = (PARTICLE_COUNT * 3)%nat ->
  Forall (fun c => Rabs c <= liveBound) positions ->
  animate ref time positions = Some positions' ->
  Forall (fun c => Rabs c <= liveBound) positions'.
Proof.
  intros Hgen Hg Hlen Hall Hrun.
  pose proof (generatedFor_aligned random ref Hgen) as Hal.
  destruct (animate_spec ref time positions)
    as (positions'' & Hrun' & Hlen' & Hpts);
    [unfold aligned in Hal; lia | lia |].
  rewrite Hrun in Hrun'. injection Hrun' as <-.
  apply Forall_lookup. intros j c Hj.
  assert (Hjlt : (j < PARTICLE_COUNT * 3)%nat).
  { apply lookup_lt_Some in Hj. lia. }
  destruct (index_by_three j) as [i Hi].
  destruct (Hpts i) as ([[tx ty] tz] & [[x y] z] & Ht & Hp & Hnew); [lia |].
  pose proof (generatedFor_target ref i tx ty tz Hgen ltac:(lia) Ht) as Htb.
  pose proof (particleTarget_bounded ref time i tx ty tz Hg Htb) as Hb.
  destruct (particleTarget ref time i (tx, ty, tz)) as [[X Y] Z].
  destruct Hb as (HX & HY & HZ).
  apply pointAt_inv in Hp as (Hp0 & Hp1 & Hp2).
  apply pointAt_inv in Hnew as (Hn0 & Hn1 & Hn2).
  rewrite Forall_lookup in Hall.
  destruct Hi as [-> | [-> | ->]].
  - rewrite Hn0 in Hj. injection Hj as <-.
    apply lerp_bounded; [exact (Hall _ _ Hp0) | exact HX].
  - rewrite Hn1 in Hj. injection Hj as <-.
    apply lerp_bounded; [exact (Hall _ _ Hp1) | exact HY].
  - rewrite Hn2 in Hj. injection Hj as <-.
    apply lerp_bounded; [exact (Hall _ _ Hp2) | exact HZ].
Qed.

Lemma step_bounded (e : Event) (s s' : System) :
  sized s ->
  generatedFor random (stateRef (world s)) ->
  0 <= gestureFactor (stateRef (world s)) <= 1 ->
  boundedLive s ->
  step random e s = Some s' ->
  generatedFor random (stateRef (world s')) /\
  0 <= gestureFactor (stateRef (world s')) <= 1 /\
  boundedLive s'.
Proof.
  intros [Hal Hlen] Hgen Hg Hb Hstep.
  destruct e as [time | now results | activeShape k]; cbn [step] in Hstep.
  - destruct (animate (stateRef (world s)) time (live s)) as [positions' |]
      eqn:Hrun; [| discriminate].
    injection Hstep as <-. cbn [world live].
    split; [exact Hgen |]. split; [exact Hg |].
    unfold boundedLive. cbn [live].
    exact (animate_bounded _ time _ _ Hgen Hg Hlen Hb Hrun).
  - injection Hstep as <-. cbn [world live].
    split; [| split; [now apply onResults_range | exact Hb]].
    destruct Hgen as [k Hk]. exists k.
    destruct (onResults_closure_frame (gestureValue initialUi) now results
                (world s)) as [Hs Ht].
    unfold onResults. rewrite Hs, Ht. exact Hk.
  - injection Hstep as <-. cbn [world live].
    split; [| split; [| exact Hb]].
    + exists k. unfold selectShape.
      destruct (generateShape random activeShape PARTICLE_COUNT k)
        as [target k'] eqn:Hgs.
      cbn [fst stateRef shape targetPositions]. now rewrite Hgs.
    + unfold selectShape.
      destruct (generateShape random activeShape PARTICLE_COUNT k)
        as [target k'].
      exact Hg.
Qed.

End Bounds.

Lemma run_bounded (random : nat -> R) (events : list Event) :
  (forall j, 0 <= random j < 1) ->
  forall s s',
    sized s ->
    generatedFor random (stateRef (world s)) ->
    0 <= gestureFactor (stateRef (world s)) <= 1 ->
    boundedLive s ->
    run random events s = Some s' ->
    generatedFor random (stateRef (world s')) /\
    0 <= gestureFactor (stateRef (world s')) <= 1 /\
    boundedLive s'.
Proof.
  intros Hr. induction events as [| e rest IH];
    intros s s' Hs Hgen Hg Hb Hrun.
  - injection Hrun as <-. auto.
  - cbn [run] in Hrun.
    destruct (step_sized random e s Hs) as (s1 & Hstep & Hs1).
    rewrite Hstep in Hrun. cbn [mbind option_bind] in Hrun.
    destruct (step_bounded random Hr e s s1 Hs Hgen Hg Hb Hstep)
      as (Hgen1 & Hg1 & Hb1).
    exact (IH s1 s' Hs1 Hgen1 Hg1 Hb1 Hrun).
Qed.

(** X16: the simulation stays bounded and consistent: from the mounted
    component, under any interleaving of display refreshes, perception
    frames and shape selections, the target cloud is always a cloud
    generated for the current shape, [gestureFactor] is in [[0,1]], and no
    live coordinate ever leaves [[-12.05, 12.05]] -- the fireworks radius
    4 times the largest explosion factor 3, plus the jitter 0.05. *)
Theorem run_stays_bounded (random : nat -> R) (k : nat) (events : list Event) :
  (forall j, 0 <= random j < 1) ->
  exists s,
    run random events (initialSystem random k) = Some s /\
    generatedFor random (stateRef (world s)) /\
    0 <= gestureFactor (stateRef (world s)) <= 1 /\
    Forall (fun c => Rabs c <= 12.05) (live s).
Proof.
  intros Hr.
  destruct (run_sized random events (initialSystem random k)
              (initialSystem_sized random k)) as (s & Hrun & _).
  exists s. split; [exact Hrun |].
  apply (run_bounded random events Hr (initialSystem random k) s);
    [apply initialSystem_sized | | | | exact Hrun].
  - exists 0%nat. reflexivity.
  - cbn. lra.
  - unfold boundedLive, initialSystem. cbn [live].
    eapply Forall_impl; [apply (initialPositions_bounded random Hr) |].
    intros c Hc. cbv beta in Hc. unfold liveBound. apply Rabs_le. lra.
Qed.

Lemma run_stays_bounded_witness :
  exists s,
    run (fun _ => / 2)
      [Select "fireworks" 5; Frame 0 (pinchFrame 0.18); Tick 1;
       Frame 40 emptyHandFrame; Select "star" 9; Tick 2]
      (initialSystem (fun _ => / 2) 0) = Some s /\
    Forall (fun c => Rabs c <= 12.05) (live s).
Proof.
  destruct (run_stays_bounded (fun _ => / 2) 0
              [Select "fireworks" 5; Frame 0 (pinchFrame 0.18); Tick 1;
               Frame 40 emptyHandFrame; Select "star" 9; Tick 2])
    as (s & Hrun & _ & _ & Hb); [intros j; lra |].
  exists s. split; assumption.
Defined.

(** ** Start of the perception pipeline *)

Lemma initMediaPipe_skip (pages : nat -> Page) (m : nat) :
  forall fuel n elapsed,
    (forall j, (n <= j < n + m)%nat -> handsLoaded (pages j) = false) ->
    initMediaPipe pages (m + fuel) n elapsed
    = initMediaPipe pages fuel (n + m) (elapsed + 100 * Z.of_nat m)%Z.
Proof.
  induction m as [| m IH]; intros fuel n elapsed Hwait.
  - cbn [Nat.add]. f_equal; lia.
  - cbn [Nat.add initMediaPipe]. unfold initMediaPipe_call at 1.
    rewrite (Hwait n) by lia. cbn [negb].
    rewrite IH by (intros j Hj; apply Hwait; lia).
    f_equal; lia.
Qed.

(** X17: the pipeline is set up by the first call of [initMediaPipe] that
    finds [window.Hands], after one 100 ms wait per earlier call, and by
    no call before it; enough polling reaches that call.  That call
    registers [onResults]; it starts the camera when the video element is
    mounted and [window.Camera] is defined, and throws a [TypeError] when
    the video element is mounted but [window.Camera] is not. *)
Theorem initMediaPipe_first_loaded (pages : nat -> Page) (m fuel : nat) :
  (forall j, (j < m)%nat -> handsLoaded (pages j) = false) ->
  handsLoaded (pages m) = true ->
  (fuel <= m)%nat /\ initMediaPipe pages fuel 0 0 = None \/
  (m < fuel)%nat /\
  exists outcome,
    initMediaPipe pages fuel 0 0 = Some (m, (100 * Z.of_nat m)%Z, outcome) /\
    outcome =
      (if videoMounted (pages m) then
         if cameraLoaded (pages m) then Registered true Normal
         else Registered false (Throw TypeError)
       else Registered false Normal).
Proof.
  intros Hwait Hm.
  destruct (Nat.le_gt_cases fuel m) as [Hle | Hlt].
  - left. split; [exact Hle |].
    replace fuel with (fuel + 0)%nat by lia.
    rewrite initMediaPipe_skip by (intros j Hj; apply Hwait; lia).
    reflexivity.
  - right. split; [exact Hlt |].
    replace fuel with (m + S (fuel - S m))%nat by lia.
    rewrite initMediaPipe_skip by (intros j Hj; apply Hwait; lia).
    cbn [initMediaPipe Nat.add]. unfold initMediaPipe_call.
    rewrite Hm. cbn [negb].
    eexists. split; [| reflexivity].
    destruct (videoMounted (pages m)), (cameraLoaded (pages m));
      do 2 f_equal; lia.
Qed.

Lemma initMediaPipe_first_loaded_witness :
  initMediaPipe
    (fun n => {| handsLoaded := (2 <=? n)%nat;
                 cameraLoaded := true;
                 videoMounted := true |}) 5 0 0
  = Some (2%nat, 200%Z, Registered true Normal).
Proof.
  destruct (initMediaPipe_first_loaded
              (fun n => {| handsLoaded := (2 <=? n)%nat;
                           cameraLoaded := true;
                           videoMounted := true |}) 2 5)
    as [[Hle _] | (_ & outcome & Hrun & Hout)].
  - intros j Hj. cbn [handsLoaded].
    destruct (Nat.leb_spec 2 j); [lia | reflexivity].
  - reflexivity.
  - lia.
  - rewrite Hrun, Hout. reflexivity.
Defined.

(** ** Edge cases of shape selection and steady ticks *)

(** X18: selecting an identifier the generator does not know is not an
    error: the regeneration makes no draw and yields the all-zero cloud,
    and the tick treats the shape like a heart or flower, so every
    particle is then drawn toward the jitter circle of radius 0.05 around
    the origin, in the plane [z = 0]. *)
Theorem select_unknown_shape (random : nat -> R) (type : string) (k : nat)
    (w : World) (time : R) (i : nat) :
  type <> "heart"%string -> type <> "flower"%string ->
  type <> "fireworks"%string ->
  (i < PARTICLE_COUNT)%nat ->
  let '(w', k') := selectShape random type k w in
  k' = k /\
  gestureFactor (stateRef w') = gestureFactor (stateRef w) /\
  Spec.pointAt (targetPositions (stateRef w')) i = Some (0, 0, 0) /\
  particleTarget (stateRef w') time i (0, 0, 0)
  = (sin (time * 2 + INR i) * 0.05, cos (time * 1.5 + INR i) * 0.05, 0).
Proof.
  intros Hh Hf Hw Hi. unfold selectShape, generateShape.
  rewrite fillShape_unknown by assumption.
  cbn [stateRef gestureFactor targetPositions].
  split; [reflexivity |]. split; [reflexivity |]. split.
  - unfold Spec.pointAt. rewrite !lookup_replicate_2 by lia. reflexivity.
  - unfold particleTarget. cbn [shape gestureFactor].
    apply String.eqb_neq in Hw. rewrite Hw.
    apply (f_equal2 pair); [apply (f_equal2 pair) |]; lra.
Qed.

Lemma select_unknown_shape_witness :
  let '(w', k') := selectShape (fun _ => / 2) "star" 3
                     (initialWorld (fun _ => / 2)) in
  k' = 3%nat /\
  Spec.pointAt (targetPositions (stateRef w')) 10 = Some (0, 0, 0).
Proof.
  pose proof (select_unknown_shape (fun _ => / 2) "star" 3
                (initialWorld (fun _ => / 2)) 0 10) as H.
  destruct (selectShape (fun _ => / 2) "star" 3 (initialWorld (fun _ => / 2)))
    as [w' k'].
  destruct H as (Hk & _ & Hp & _);
    [discriminate | discriminate | discriminate | unfold PARTICLE_COUNT; lia |].
  split; assumption.
Defined.

(** X19: while [stateRef] does not change and the shape is not fireworks,
    the depth target of a particle is fixed at [tz * (0.2 + 0.8 g)],
    jitter and clock notwithstanding; over any [n] ticks the [z] of every
    particle closes the gap to it by the factor [0.92 ^ n]. *)
Theorem depth_converges (ref : Ref) (times : list R) (positions : list R) :
  shape ref <> "fireworks"%string ->
  (PARTICLE_COUNT * 3 <= length (targetPositions ref))%nat ->
  (PARTICLE_COUNT * 3 <= length positions)%nat ->
  exists positions',
    animateTicks ref times positions = Some positions' /\
    (forall i, (i < PARTICLE_COUNT)%nat ->
       exists tx ty tz x y z x' y' z',
         Spec.pointAt (targetPositions ref) i = Some (tx, ty, tz) /\
         Spec.pointAt positions i = Some (x, y, z) /\
         Spec.pointAt positions' i = Some (x', y', z') /\
         z' - tz * (0.2 + gestureFactor ref * 0.8)
         = (z - tz * (0.2 + gestureFactor ref * 0.8)) * 0.92 ^ length times).
Proof.
  intros Hs Htl Hpl.
  destruct (animateTicks_depth ref times Hs Htl positions Hpl)
    as (positions' & Hrun & _ & Hpts).
  exists positions'. split; [exact Hrun |].
  intros i Hi.
  destruct (Hpts i Hi)
    as ([[tx ty] tz] & [[x y] z] & [[x' y'] z'] & Ht & Hp & Hp' & Hz).
  exists tx, ty, tz, x, y, z, x', y', z'.
  do 3 (split; [assumption |]).
  cbn [snd] in Hz. rewrite Hz. apply lerpTicks_error.
Qed.

Lemma depth_converges_witness :
  let ref := {| shape := "heart";
                targetPositions := replicate (PARTICLE_COUNT * 3) 1;
                gestureFactor := 1 |} in
  exists positions',
    animateTicks ref [0; 0.016; 0.033] (replicate (PARTICLE_COUNT * 3) 0)
    = Some positions'.
Proof.
  cbv zeta.
  destruct (depth_converges
              {| shape := "heart";
                 targetPositions := replicate (PARTICLE_COUNT * 3) 1;
                 gestureFactor := 1 |}
              [0; 0.016; 0.033] (replicate (PARTICLE_COUNT * 3) 0))
    as (positions' & Hrun & _).
  - cbn [shape]. discriminate.
  - cbn [targetPositions]. rewrite length_replicate. lia.
  - rewrite length_replicate. lia.
  - exists positions'. exact Hrun.
Defined.
